(** * Junction smoothing of vascular tree meshes

    A shallow embedding of [svv/tree/utils/junction_smoothing.py]:
    junction detection over vessel endpoints, isolation of the mesh region
    around a junction, the point write-back of the basic smoothing path, the
    wall/cap pipeline of the advanced path and the statistics reporter.

    Numbers are IEEE binary64 values (numpy's float64) through the kernel's
    primitive floats, so coordinate equality is the one Python applies to
    tuples of floats.  Dictionaries whose iteration order the code relies on
    are association lists in insertion order; the degree histogram, a
    [defaultdict(int)], is a [gmap].  Calls into pyvista, pymeshfix and the
    parts of svv that are not in this module are the fields of the class
    [Collaborators]. *)

From Stdlib Require Import ZArith List Lia String Bool.
From Stdlib Require Import Floats.PrimFloat.
From Stdlib Require Floats.SpecFloat Floats.FloatAxioms.
From Stdlib Require Uint63.
From Stdlib Require Import DecimalString.
From stdpp Require Import gmap list.
Import ListNotations.

Local Open Scope nat_scope.

(** ** Exceptions and results *)

Inductive exn : Type :=
| ValueError (msg : string)
| IndexError (msg : string)
| AttributeError (msg : string)
| RuntimeError (msg : string).

Definition exn_message (e : exn) : string :=
  match e with
  | ValueError m | IndexError m | AttributeError m | RuntimeError m => m
  end.

Inductive result (A : Type) : Type :=
| Ok (a : A)
| Raise (e : exn).
Arguments Ok {A} a.
Arguments Raise {A} e.

(** The error monad, with stdpp's [x ← r; k] notation. *)
#[global] Instance result_ret : MRet result := fun A a => Ok a.
#[global] Instance result_bind : MBind result := fun A B k r =>
  match r with
  | Ok a => k a
  | Raise e => Raise e
  end.

Definition is_ok {A : Type} (r : result A) : bool :=
  match r with Ok _ => true | Raise _ => false end.

(** [str(n)] inside an f-string. *)
Definition show_nat (n : nat) : string := NilZero.string_of_uint (Nat.to_uint n).

(** ** Coordinates *)

Definition coord : Type := float * float * float.

(** Equality of two tuples of three float64 values: componentwise [==], so a
    tuple holding a NaN equals nothing and [0.0] equals [-0.0]. *)
Definition coord_eqb (a b : coord) : bool :=
  let '(ax, ay, az) := a in
  let '(bx, by_, bz) := b in
  PrimFloat.eqb ax bx && PrimFloat.eqb ay by_ && PrimFloat.eqb az bz.

(** ** Vessel records

    [tree_data.get('proximal')[i]] and [tree_data.get('distal')[i]] are the
    two endpoints of vessel [i]; [len(tree_data)] is the number of vessels. *)

Record Vessel : Type := { proximal : coord; distal : coord }.

Definition TreeData : Type := list Vessel.

(** ** Junction detection *)

Module Detector.

(** [point_to_vessels[k].append(i)] on a [defaultdict(list)]: the first key
    equal to [k] receives [i]; a missing key is added last with [[i]]. *)
Fixpoint append_vessel (d : list (coord * list nat)) (k : coord) (i : nat)
  : list (coord * list nat) :=
  match d with
  | [] => [(k, [i])]
  | (k', l) :: d' =>
      if coord_eqb k' k then (k', l ++ [i]) :: d'
      else (k', l) :: append_vessel d' k i
  end.

(** The loop [for i in range(len(tree_data))], from index [i] on. *)
Fixpoint scan_endpoints (vs : list Vessel) (i : nat) (d : list (coord * list nat))
  : list (coord * list nat) :=
  match vs with
  | [] => d
  | v :: vs' =>
      let d1 := append_vessel d (proximal v) i in
      let d2 := append_vessel d1 (distal v) i in
      scan_endpoints vs' (S i) d2
  end.

Definition point_to_vessels (tree_data : TreeData) : list (coord * list nat) :=
  scan_endpoints tree_data 0 [].

(** The loop over [point_to_vessels.items()]: [junctions] is the dictionary
    from junction id to vessel list, in insertion order; the id assigned is
    always a new key, so [junctions[junction_id] = vessel_list] adds an entry
    at the end. *)
Fixpoint collect_junctions (items : list (coord * list nat)) (junction_id : nat)
    (junctions : list (nat * list nat)) (junction_coords : list coord)
  : list (nat * list nat) * list coord :=
  match items with
  | [] => (junctions, junction_coords)
  | (coord, vessel_list) :: items' =>
      if 1 <? length vessel_list then
        collect_junctions items' (S junction_id)
          (junctions ++ [(junction_id, vessel_list)]) (junction_coords ++ [coord])
      else collect_junctions items' junction_id junctions junction_coords
  end.

(** [tolerance=1e-6], as the binary64 value nearest to it. *)
Definition default_tolerance : float := 0x1.0c6f7a0b5ed8dp-20%float.

Definition detect_junctions {TreeMap Connectivity : Type}
    (tree_data : TreeData) (vessel_map : TreeMap) (connectivity : Connectivity)
    (tolerance : float) : list (nat * list nat) * list coord :=
  collect_junctions (point_to_vessels tree_data) 0 [] [].

End Detector.

(** ** Surface meshes *)

(** A [pv.PolyData]: the point buffer, the faces as lists of point ids, the
    per-point normals when they were computed, and the [hsize] attribute svv
    attaches to a mesh ([None] when [hasattr(mesh, 'hsize')] is false). *)
Record PolyData : Type := {
  points : list coord;
  cells : list (list nat);
  point_normals : option (list coord);
  hsize_attr : option float
}.

Definition n_points (m : PolyData) : nat := length (points m).

Definition set_points (m : PolyData) (pts : list coord) : PolyData :=
  {| points := pts; cells := cells m;
     point_normals := point_normals m; hsize_attr := hsize_attr m |}.

(** [smoothed_mesh.hsize = h]. *)
Definition set_hsize (m : PolyData) (h : option float) : PolyData :=
  {| points := points m; cells := cells m;
     point_normals := point_normals m; hsize_attr := h |}.

(** [mesh.copy()]: a deep copy, equal to the mesh by value. *)
Definition copy (m : PolyData) : PolyData := set_points m (points m).

(** A [pv.UnstructuredGrid], the type [extract_points] returns and the block
    type [split_bodies] produces: it has no [faces] attribute and none of the
    filters of [pv.PolyData], [smooth_taubin] among them. *)
Record UnstructuredGrid : Type := {
  grid_points : list coord;
  grid_cells : list (list nat)
}.

Definition grid_n_points (g : UnstructuredGrid) : nat := length (grid_points g).

Inductive DataSet : Type :=
| PolyBlock (p : PolyData)
| GridBlock (g : UnstructuredGrid).

(** The geometry collaborators the module calls: pyvista filters, pymeshfix,
    and svv's own [remesh_surface] and [extract_faces], which live outside
    this module.  A collaborator is fallible where the module guards the
    call or where its interface says it may raise. *)
Class Collaborators : Type := {
  (* mesh.extract_points(ids) *)
  extract_points : PolyData -> list nat -> UnstructuredGrid;
  (* mesh.smooth_taubin(n_iter, pass_band, boundary_smoothing, normalize_coordinates) *)
  smooth_taubin : PolyData -> nat -> float -> bool -> bool -> PolyData;
  (* mesh.compute_normals(auto_orient_normals) *)
  compute_normals : PolyData -> bool -> PolyData;
  (* fix = pymeshfix.MeshFix(mesh); fix.repair(); fix.mesh *)
  meshfix_repair : PolyData -> result PolyData;
  (* extract_faces(mesh, None): faces, walls, caps, shared boundaries *)
  extract_faces :
    PolyData -> result (list PolyData * list PolyData * list PolyData * list PolyData);
  (* mesh.extract_feature_edges(non_manifold_edges, feature_edges,
                                manifold_edges, boundary_edges) *)
  extract_feature_edges : PolyData -> bool -> bool -> bool -> bool -> PolyData;
  (* mesh.split_bodies() *)
  split_bodies : PolyData -> list DataSet;
  (* grid.extract_surface() *)
  extract_surface : UnstructuredGrid -> PolyData;
  (* remesh_surface(boundary, nosurf, hsiz) *)
  remesh_surface : PolyData -> bool -> float -> result PolyData;
  (* pv.merge(meshes) *)
  merge : list PolyData -> result PolyData
}.

(** ** Region isolation *)

Module Region.

Local Open Scope float_scope.

(** [p - junction_point] on one row. *)
Definition sub3 (p q : coord) : coord :=
  let '(px, py, pz) := p in
  let '(qx, qy, qz) := q in
  (px - qx, py - qy, pz - qz).

(** [np.linalg.norm(row)]: the square root of the sum of squares. *)
Definition norm3 (v : coord) : float :=
  let '(x, y, z) := v in PrimFloat.sqrt (x * x + y * y + z * z).

(** [np.linalg.norm(mesh.points - junction_point, axis=1)]. *)
Definition distances_to (pts : list coord) (junction_point : coord) : list float :=
  map (fun p => norm3 (sub3 p junction_point)) pts.

(** [distances[distances > 0]]. *)
Definition positive_entries (distances : list float) : list float :=
  List.filter (fun d => 0 <? d) distances.

(** [np.min]: a [ValueError] on an empty array.  The arrays it is applied to
    hold entries that passed [> 0], hence no NaN. *)
Definition np_min (a : list float) : result float :=
  match a with
  | [] => Raise (ValueError
            "zero-size array to reduction operation minimum which has no identity")
  | x :: xs => Ok (fold_left (fun acc y => if y <? acc then y else acc) xs x)
  end.

(** [np.where(mask)[0]]: the indices at which the mask holds, ascending. *)
Fixpoint where_from (mask : list bool) (i : nat) : list nat :=
  match mask with
  | [] => []
  | b :: mask' =>
      if b then i :: where_from mask' (S i) else where_from mask' (S i)
  end.

Definition np_where (mask : list bool) : list nat := where_from mask 0.

(** Lines 91-99 of [identify_junction_regions] for one junction point. *)
Definition region_point_ids (pts : list coord) (junction_point : coord)
    (radius_factor : float) : result (list nat) :=
  let distances := distances_to pts junction_point in
  min_radius ← np_min (positive_entries distances);
  let smoothing_radius := min_radius * radius_factor in
  let region_mask := map (fun d => d <=? smoothing_radius) distances in
  mret (np_where region_mask).

(** Lines 197-202 of [apply_junction_smoothing]: the same selection written
    inline, with the factor on the left of the product. *)
Definition recomputed_point_ids (pts : list coord) (junction_point : coord)
    (smoothing_radius_factor : float) : result (list nat) :=
  let norms := distances_to pts junction_point in
  m ← np_min (positive_entries norms);
  mret (np_where (map (fun d => d <=? smoothing_radius_factor * m) norms)).

End Region.

(** ** The basic path *)

Module Basic.

Import Detector Region.

Section WithCollaborators.
Context {ext : Collaborators}.

(** The loop of [identify_junction_regions], with [junction_regions] as the
    accumulator. *)
Fixpoint regions_loop (mesh : PolyData) (junction_points : list coord)
    (radius_factor : float) (junction_regions : list UnstructuredGrid)
  : result (list UnstructuredGrid) :=
  match junction_points with
  | [] => mret junction_regions
  | junction_point :: rest =>
      region_ids ← region_point_ids (points mesh) junction_point radius_factor;
      if 0 <? length region_ids then
        let region_mesh := extract_points mesh region_ids in
        regions_loop mesh rest radius_factor (junction_regions ++ [region_mesh])
      else regions_loop mesh rest radius_factor junction_regions
  end.

Definition identify_junction_regions (mesh : PolyData) (junction_points : list coord)
    (radius_factor : float) : result (list UnstructuredGrid) :=
  regions_loop mesh junction_points radius_factor [].

(** [region_mesh.smooth_taubin(n_iter, pass_band, boundary_smoothing,
    normalize_coordinates)] on the [pv.UnstructuredGrid] that [extract_points]
    returned: the class has no such attribute, and the lookup raises before
    anything is called. *)
Definition grid_smooth_taubin (region_mesh : UnstructuredGrid) (n_iter : nat)
    (pass_band : float) (boundary_smoothing normalize_coordinates : bool)
  : result UnstructuredGrid :=
  Raise (AttributeError "'UnstructuredGrid' object has no attribute 'smooth_taubin'").

Definition smooth_junction_region (region_mesh : UnstructuredGrid) (iterations : nat)
    (relaxation_factor : float) : result UnstructuredGrid :=
  if grid_n_points region_mesh <? 4 then Ok region_mesh
  else grid_smooth_taubin region_mesh iterations relaxation_factor true true.

(** [buf[idx] = vals] with an index array and a two-dimensional value array:
    an out-of-range index is an [IndexError]; the values must have as many
    rows as there are indices, or one row, which is broadcast; otherwise
    numpy raises a [ValueError]. *)
Definition assign_rows (buf : list coord) (idx : list nat) (vals : list coord)
  : result (list coord) :=
  if negb (forallb (fun i => i <? length buf) idx) then
    Raise (IndexError "index is out of bounds for axis 0")
  else if length vals =? length idx then
    Ok (fold_left (fun b iv => <[fst iv := snd iv]> b) (zip idx vals) buf)
  else
    match vals with
    | [v] => Ok (fold_left (fun b i => <[i := v]> b) idx buf)
    | _ => Raise (ValueError
             "shape mismatch: value array could not be broadcast to indexing result")
    end.

(** [junction_points[i]]. *)
Definition row_at (junction_points : list coord) (i : nat) : result coord :=
  match junction_points !! i with
  | Some p => Ok p
  | None => Raise (IndexError "index is out of bounds for axis 0")
  end.

(** The loop [for i, region in enumerate(junction_regions)], from index [i]
    on, with the copied mesh's point buffer threaded through. *)
Fixpoint update_loop (mesh : PolyData) (junction_points : list coord)
    (smoothing_radius_factor : float) (smoothing_iterations : nat)
    (relaxation_factor : float) (junction_regions : list UnstructuredGrid) (i : nat)
    (smoothed_mesh : PolyData) : result PolyData :=
  match junction_regions with
  | [] => mret smoothed_mesh
  | region :: rest =>
      if 0 <? grid_n_points region then
        smoothed_region ←
          smooth_junction_region region smoothing_iterations relaxation_factor;
        junction_point ← row_at junction_points i;
        region_ids ← recomputed_point_ids (points mesh) junction_point
                       smoothing_radius_factor;
        smoothed_mesh' ←
          (if (0 <? length region_ids)
              && (0 <? length (grid_points smoothed_region)) then
             pts ← assign_rows (points smoothed_mesh)
                     (take (length (grid_points smoothed_region)) region_ids)
                     (grid_points smoothed_region);
             mret (set_points smoothed_mesh pts)
           else mret smoothed_mesh);
        update_loop mesh junction_points smoothing_radius_factor smoothing_iterations
          relaxation_factor rest (S i) smoothed_mesh'
      else
        update_loop mesh junction_points smoothing_radius_factor smoothing_iterations
          relaxation_factor rest (S i) smoothed_mesh
  end.

(** The part of [apply_junction_smoothing] between the copy and the normal
    recomputation (lines 179-206). *)
Definition overwrite_stage (mesh : PolyData) (junction_points : list coord)
    (smoothing_radius_factor : float) (smoothing_iterations : nat)
    (relaxation_factor : float) : result PolyData :=
  let smoothed_mesh := copy mesh in
  junction_regions ←
    identify_junction_regions mesh junction_points smoothing_radius_factor;
  update_loop mesh junction_points smoothing_radius_factor smoothing_iterations
    relaxation_factor junction_regions 0 smoothed_mesh.

(** [apply_junction_smoothing]: the lines printed, and the outcome. *)
Definition apply_junction_smoothing {TreeMap Connectivity : Type}
    (mesh : PolyData) (tree_data : TreeData) (vessel_map : TreeMap)
    (connectivity : Connectivity) (smoothing_radius_factor : float)
    (smoothing_iterations : nat) (relaxation_factor : float)
  : list string * result PolyData :=
  let '(junctions, junction_points) :=
    detect_junctions tree_data vessel_map connectivity default_tolerance in
  if length junction_points =? 0 then
    (["No junctions detected for smoothing."%string], Ok mesh)
  else
    ([("Detected " ++ show_nat (length junction_points)
        ++ " junctions for smoothing.")%string],
     smoothed_mesh ← overwrite_stage mesh junction_points smoothing_radius_factor
                       smoothing_iterations relaxation_factor;
     let smoothed_mesh := compute_normals smoothed_mesh true in
     meshfix_repair smoothed_mesh).

End WithCollaborators.

End Basic.

(** ** The advanced path *)

Module Advanced.

Import Detector.

Section WithCollaborators.
Context {ext : Collaborators}.

(** [boundary if hasattr(boundary, 'faces') else boundary.extract_surface()]. *)
Definition to_polydata (boundary : DataSet) : PolyData :=
  match boundary with
  | PolyBlock p => p
  | GridBlock g => extract_surface g
  end.

(** [if hsize is None: hsize = mesh.hsize if hasattr(mesh, 'hsize') else 0.1]. *)
Definition resolve_hsize (mesh : PolyData) (hsize : option float) : float :=
  match hsize with
  | Some h => h
  | None =>
      match hsize_attr mesh with
      | Some h => h
      | None => 0x1.999999999999ap-4%float
      end
  end.

(** The loop [for i, boundary in enumerate(boundaries)] (lines 297-326), from
    index [i] on: the state is the [hsize] variable, the [caps] list and the
    lines printed so far. *)
Fixpoint caps_loop (mesh : PolyData) (boundaries : list DataSet) (i : nat)
    (hsize : option float) (caps : list PolyData) (out : list string)
  : option float * list PolyData * list string :=
  match boundaries with
  | [] => (hsize, caps, out)
  | boundary :: rest =>
      let h := resolve_hsize mesh hsize in
      let boundary_polydata := to_polydata boundary in
      if n_points boundary_polydata <? 3 then
        caps_loop mesh rest (S i) (Some h) (caps ++ [boundary_polydata])
          (out ++ [("Warning: Boundary " ++ show_nat i ++ " has too few points ("
                    ++ show_nat (n_points boundary_polydata)
                    ++ "), skipping remeshing")%string])
      else
        match remesh_surface boundary_polydata true h with
        | Ok cap => caps_loop mesh rest (S i) (Some h) (caps ++ [cap]) out
        | Raise e =>
            caps_loop mesh rest (S i) (Some h) (caps ++ [to_polydata boundary])
              (out ++ [("Warning: Failed to remesh boundary " ++ show_nat i ++ ": "
                        ++ exn_message e)%string;
                       "Using original boundary without remeshing"%string])
        end
  end.

(** [wall.smooth_taubin(n_iter=10, pass_band=0.1, boundary_smoothing=True,
    normalize_coordinates=True)]. *)
Definition smooth_wall (wall : PolyData) : PolyData :=
  smooth_taubin wall 10 0x1.999999999999ap-4%float true true.

Definition returning_original : string := "Returning original mesh without smoothing.".

(** [smooth_junctions_advanced]: the lines printed, and the outcome.  The
    handler around junction detection is not modelled: [detect_junctions]
    raises nothing on a well-formed vessel list. *)
Definition smooth_junctions_advanced {TreeMap Connectivity : Type}
    (mesh : PolyData) (tree_data : TreeData) (vessel_map : TreeMap)
    (connectivity : Connectivity) (hsize : option float) (cap_resolution : nat)
  : list string * result PolyData :=
  let '(junctions, junction_points) :=
    detect_junctions tree_data vessel_map connectivity default_tolerance in
  if length junction_points =? 0 then
    (["No junctions detected for smoothing."%string], Ok mesh)
  else
    let out := [("Detected " ++ show_nat (length junction_points)
                 ++ " junctions for smoothing.")%string] in
    match extract_faces mesh with
    | Raise e =>
        (out ++ [("Warning: Face extraction failed: " ++ exn_message e)%string;
                 returning_original], Ok mesh)
    | Ok (faces, walls, caps, shared_boundaries) =>
        if length walls =? 0 then
          (out ++ ["No wall faces found for smoothing."%string], Ok mesh)
        else
          let smoothed_walls := map smooth_wall walls in
          match smoothed_walls with
          | [smoothed_mesh] =>
              let boundaries :=
                split_bodies (extract_feature_edges smoothed_mesh false false false true) in
              let '(hsize, caps, out) := caps_loop mesh boundaries 0 hsize [] out in
              match merge (smoothed_mesh :: caps) with
              | Ok merged => (out, Ok (set_hsize merged hsize))
              | Raise e =>
                  (out ++ [("Warning: Failed to merge smoothed mesh: "
                            ++ exn_message e)%string; returning_original], Ok mesh)
              end
          | _ =>
              (out,
               merged ← merge smoothed_walls;
               h ← match hsize with
                   | Some h => Ok h
                   | None =>
                       match hsize_attr mesh with
                       | Some h => Ok h
                       | None => Raise (AttributeError
                                   "'PolyData' object has no attribute 'hsize'")
                       end
                   end;
               mret (set_hsize merged (Some h)))
          end
    end.

End WithCollaborators.

End Advanced.

(** ** Junction statistics *)

Module Statistics.

Import Detector.

(** The record [get_junction_statistics] returns; [junction_coordinates] is
    [None] when the dictionary has no such key. *)
Record Stats : Type := {
  total_junctions : nat;
  junction_types : gmap nat nat;
  average_vessels_per_junction : float;
  junction_coordinates : option (list coord)
}.

(** [junction_types[len(vessel_list)] += 1] on a [defaultdict(int)]. *)
Definition count_type (junction_types : gmap nat nat) (vessel_list : list nat)
  : gmap nat nat :=
  <[length vessel_list := default 0 (junction_types !! length vessel_list) + 1]>
    junction_types.

(** The float64 value of a non-negative integer below 2^63. *)
Definition float_of_nat (n : nat) : float :=
  PrimFloat.of_uint63 (Uint63.of_Z (Z.of_nat n)).

(** [np.mean] of a non-empty list of integers: the entries are summed in
    float64 and the sum is divided by the number of entries.  The entries are
    junction degrees; every partial sum is an integer below 2^53, which
    float64 addition yields exactly in any order, so the accumulated sum is
    the float64 value of the integer sum. *)
Definition np_mean (l : list nat) : float :=
  PrimFloat.div (float_of_nat (sum_list l)) (float_of_nat (length l)).

Definition get_junction_statistics {TreeMap Connectivity : Type}
    (tree_data : TreeData) (vessel_map : TreeMap) (connectivity : Connectivity)
  : Stats :=
  let '(junctions, junction_points) :=
    detect_junctions tree_data vessel_map connectivity default_tolerance in
  if length junctions =? 0 then
    {| total_junctions := 0;
       junction_types := ∅;
       average_vessels_per_junction := 0%float;
       junction_coordinates := None |}
  else
    let junction_types := fold_left count_type (map snd junctions) ∅ in
    {| total_junctions := length junctions;
       junction_types := junction_types;
       average_vessels_per_junction := np_mean (map (fun vessels => length vessels)
                                                    (map snd junctions));
       junction_coordinates := Some junction_points |}.

(** The sum of the values of a histogram. *)
Definition sum_values (m : gmap nat nat) : nat :=
  map_fold (fun _ v acc => v + acc) 0 m.

End Statistics.

(** ** Concrete trees, meshes and collaborators *)

Module Examples.

Local Open Scope float_scope.

Definition origin : coord := (0, 0, 0).

Definition vessel (p d : coord) : Vessel := {| proximal := p; distal := d |}.

(** Two vessels meeting end to start at the origin. *)
Definition two_vessels : TreeData :=
  [vessel (-5, 0, 0) origin; vessel origin (0, 5, 0)].

(** A root and two generations of children: two junctions of degree 3. *)
Definition five_vessels : TreeData :=
  [vessel (-5, 0, 0) origin;
   vessel origin (3, 4, 0);
   vessel origin (3, -4, 0);
   vessel (3, 4, 0) (6, 8, 0);
   vessel (3, 4, 0) (3, 9, 0)].

Definition lone_vessel : TreeData := [vessel origin (1, 0, 0)].

(** Two vessels whose facing endpoints are 2^-30 apart, closer than the
    default tolerance of 1e-6. *)
Definition near_miss : TreeData :=
  [vessel (-5, 0, 0) origin; vessel (0x1p-30, 0, 0) (0, 5, 0)].

Definition bare (pts : list coord) (cs : list (list nat)) : PolyData :=
  {| points := pts; cells := cs; point_normals := None; hsize_attr := None |}.

(** One triangle with a single vertex near the origin. *)
Definition triangle : PolyData :=
  bare [(1, 0, 0); (3, 0, 0); (0, 3, 0)] [[0; 1; 2]]%nat.

(** Two triangles sharing an edge, their four points at distance 1 from the
    origin. *)
Definition diamond : PolyData :=
  bare [(1, 0, 0); (0, 1, 0); (-1, 0, 0); (0, -1, 0)] [[0; 1; 2]; [0; 2; 3]]%nat.

(** Two components: a triangle around the origin and, far away, a closed
    tetrahedron. *)
Definition triangle_and_tetrahedron : PolyData :=
  bare [(1, 0, 0); (0, 1, 0); (0, 0, 1);
        (10, 0, 0); (11, 0, 0); (10, 1, 0); (10, 0, 1)]
       [[0; 1; 2]; [3; 5; 4]; [3; 4; 6]; [3; 6; 5]; [4; 5; 6]]%nat.

(** A mesh whose only point is the origin. *)
Definition single_point : PolyData := bare [origin] [].

(** A chain with a side branch: junctions of degree 2, 3 and 2. *)
Definition three_junctions : TreeData :=
  [vessel (-5, 0, 0) origin;
   vessel origin (3, 4, 0);
   vessel (3, 4, 0) (6, 8, 0);
   vessel (3, 4, 0) (3, 9, 0);
   vessel (6, 8, 0) (9, 9, 0)].

(** Position of [i] in [ids]. *)
Fixpoint index_of (ids : list nat) (i : nat) : nat :=
  match ids with
  | [] => 0
  | j :: ids' => if (i =? j)%nat then 0 else S (index_of ids' i)
  end.

Definition mem (ids : list nat) (i : nat) : bool := existsb (Nat.eqb i) ids.

(** The faces [kept], with the points they use, renumbered from 0. *)
Definition restrict (pts : list coord) (kept : list (list nat))
  : list coord * list (list nat) :=
  let used := List.filter (fun i => existsb (fun c => mem c i) kept)
                (seq 0 (length pts)) in
  (omap (fun i => pts !! i) used, map (map (index_of used)) kept).

(** pyvista's [extract_points] with its defaults ([adjacent_cells=True],
    [include_cells=True]): every face touching a selected point, with all the
    points of those faces, as an unstructured grid. *)
Definition extract_adjacent (m : PolyData) (ids : list nat) : UnstructuredGrid :=
  let '(pts, cs) := restrict (points m) (List.filter (existsb (mem ids)) (cells m)) in
  {| grid_points := pts; grid_cells := cs |}.

(** The point ids reached from [pts] through faces, in [fuel] rounds. *)
Fixpoint reach (fuel : nat) (pts : list nat) (cs : list (list nat)) : list nat :=
  match fuel with
  | O => pts
  | S fuel' =>
      reach fuel' (pts ++ flat_map (fun c => if existsb (mem pts) c then c else []) cs) cs
  end.

(** The faces connected to the face [c]. *)
Definition component (cs : list (list nat)) (c : list nat) : list (list nat) :=
  List.filter (existsb (mem (reach (length cs) c cs))) cs.

(** The first of the largest connected components. *)
Definition largest_component (cs : list (list nat)) : list (list nat) :=
  fold_left (fun best c =>
               if (length best <? length (component cs c))%nat
               then component cs c else best) cs [].

(** The component filter of MeshFix's repair with its default
    [remove_smallest_components=True]: all but the largest connected
    component is removed. *)
Definition keep_largest_component (m : PolyData) : PolyData :=
  let '(pts, cs) := restrict (points m) (largest_component (cells m)) in
  {| points := pts; cells := cs;
     point_normals := None; hsize_attr := hsize_attr m |}.

Definition unit_normals (m : PolyData) : PolyData :=
  {| points := points m; cells := cells m;
     point_normals := Some (map (fun _ => (0, 0, 1)) (points m));
     hsize_attr := hsize_attr m |}.

(** Concatenation of the meshes, point ids shifted. *)
Fixpoint concat_meshes (ms : list PolyData) (offset : nat) : list coord * list (list nat) :=
  match ms with
  | [] => ([], [])
  | m :: ms' =>
      let '(pts, cs) := concat_meshes ms' (offset + n_points m) in
      (points m ++ pts, map (map (Nat.add offset)) (cells m) ++ cs)
  end.

Definition merge_all (ms : list PolyData) : result PolyData :=
  let '(pts, cs) := concat_meshes ms 0 in Ok (bare pts cs).

(** A fan of triangles over a loop of points. *)
Definition fan (m : PolyData) : PolyData :=
  bare (points m) (map (fun i => [0; i; S i]%nat) (seq 1 (n_points m - 2))).

(** A remesher that fails on loops of more than four points. *)
Definition remesh_small (m : PolyData) (nosurf : bool) (hsiz : float) : result PolyData :=
  if (4 <? n_points m)%nat then Raise (RuntimeError "remeshing failed")
  else Ok (fan m).

Definition square_loop : PolyData :=
  bare [(0, 0, 0); (1, 0, 0); (1, 1, 0); (0, 1, 0)] [[0; 1]; [1; 2]; [2; 3]; [3; 0]]%nat.

Definition pentagon_loop : UnstructuredGrid :=
  {| grid_points := [(0, 0, 5); (1, 0, 5); (2, 1, 5); (1, 2, 5); (0, 1, 5)];
     grid_cells := [[0; 1]; [1; 2]; [2; 3]; [3; 4]; [4; 0]]%nat |}.

Definition segment_loop : PolyData :=
  bare [(0, 0, 9); (1, 0, 9)] [[0; 1]]%nat.

(** Collaborators for a tube with three openings: points are extracted as
    pyvista does by default, the wall is the mesh itself, the boundary splits
    into a square, a pentagon and a segment. *)
Definition tube (repair : PolyData -> result PolyData)
    (walls : PolyData -> list PolyData) : Collaborators := {|
  extract_points := extract_adjacent;
  smooth_taubin := fun m _ _ _ _ => m;
  compute_normals := fun m _ => unit_normals m;
  meshfix_repair := repair;
  extract_faces := fun m => Ok ([m], walls m, [], []);
  extract_feature_edges := fun m _ _ _ _ => m;
  split_bodies := fun _ =>
    [PolyBlock square_loop; GridBlock pentagon_loop; PolyBlock segment_loop];
  extract_surface := fun g => bare (grid_points g) (grid_cells g);
  remesh_surface := remesh_small;
  merge := merge_all
|}.

(** A repair that finds nothing to repair. *)
Definition adjacent_tube : Collaborators := tube Ok (fun m => [m]).

(** A repair that removes all but the largest component. *)
Definition filtering_tube : Collaborators :=
  tube (fun m => Ok (keep_largest_component m)) (fun m => [m]).

(** The same tube seen by a face classifier that reports two wall patches. *)
Definition two_walls : Collaborators := tube Ok (fun m => [m; m]).

End Examples.

(** ** Vocabulary of the statements *)

(** A stored dictionary key [c] and an inserted key [p] are the same key:
    the very tuple that created the entry, or a tuple equal to it under [==]. *)
Definition same_key (c p : coord) : Prop := c = p \/ coord_eqb c p = true.

(** Vessel [i] of [tree_data] has an endpoint at [c]. *)
Definition ends_at (tree_data : TreeData) (i : nat) (c : coord) : Prop :=
  exists v, tree_data !! i = Some v /\
            (same_key c (proximal v) \/ same_key c (distal v)).

(** A dictionary from junction id to vessel list and a coordinate list are
    aligned: ids are the positions [0, 1, ...] and entry [k] of the one
    belongs to entry [k] of the other, the pair satisfying [P]. *)
Definition aligned (P : coord -> list nat -> Prop)
    (junctions : list (nat * list nat)) (junction_coords : list coord) : Prop :=
  length junctions = length junction_coords /\
  forall k j l, junctions !! k = Some (j, l) ->
    j = k /\ exists c, junction_coords !! k = Some c /\ P c l.

(** No two keys of the dictionary are equal under [==]. *)
Fixpoint keys_apart (d : list (coord * list nat)) : Prop :=
  match d with
  | [] => True
  | entry :: d' =>
      Forall (fun other => coord_eqb (fst entry) (fst other) = false) d'
      /\ keys_apart d'
  end.

(** [p] is one of the two endpoints of the vessel [v]. *)
Definition endpoint_of (v : Vessel) (p : coord) : Prop :=
  p = proximal v \/ p = distal v.

(** The degrees of the junctions of a junction map, in its order. *)
Definition degrees (junctions : list (nat * list nat)) : list nat :=
  map (fun entry => length (snd entry)) junctions.

(** The cap one boundary loop contributes: the loop itself when it has fewer
    than three points or when the remesher fails on it, the remeshed loop
    otherwise. *)
Definition regenerated_cap {ext : Collaborators} (h : float) (boundary : DataSet)
  : PolyData :=
  let loop := Advanced.to_polydata boundary in
  if n_points loop <? 3 then loop
  else match remesh_surface loop true h with
       | Ok cap => cap
       | Raise _ => loop
       end.

(** Two meshes differ in point coordinates only: same faces, same number of
    points, same attributes. *)
Definition only_points_differ (a b : PolyData) : Prop :=
  cells a = cells b /\ length (points a) = length (points b) /\
  point_normals a = point_normals b /\ hsize_attr a = hsize_attr b.

(** The mesh has a point at a positive distance from the junction point, so
    that the minimum of line 94 is taken over a non-empty array. *)
Definition has_distant_point (mesh : PolyData) (junction_point : coord) : Prop :=
  Region.positive_entries (Region.distances_to (points mesh) junction_point) <> [].

(** Every region has fewer than four points, so that it is handed back
    unsmoothed, and no more points than the index set selected for the
    junction point at the same position of the junction list. *)
Definition regions_fit {ext : Collaborators} (mesh : PolyData)
    (junction_points : list coord) (radius_factor : float) : Prop :=
  forall regions,
    Basic.identify_junction_regions mesh junction_points radius_factor = Ok regions ->
    forall k region junction_point ids,
      regions !! k = Some region ->
      junction_points !! k = Some junction_point ->
      Region.region_point_ids (points mesh) junction_point radius_factor = Ok ids ->
      grid_n_points region < 4 /\ grid_n_points region <= length ids.

(** The coordinates in the order [detect_junctions] inserts them: for each
    vessel its proximal point, then its distal point. *)
Definition endpoints (tree_data : TreeData) : list coord :=
  flat_map (fun v => [proximal v; distal v]) tree_data.

(** No coordinate of the list equals, under [==], one that comes later. *)
Fixpoint apart (ks : list coord) : Prop :=
  match ks with
  | [] => True
  | k :: ks' => Forall (fun k' => coord_eqb k k' = false) ks' /\ apart ks'
  end.

(** The number of vessel indices stored in the endpoint dictionary. *)
Definition total_entries (d : list (coord * list nat)) : nat :=
  sum_list (map (fun entry => length (snd entry)) d).

(** The number of junctions of a junction map that have degree [d]. *)
Definition count_degree (d : nat) (junctions : list (nat * list nat)) : nat :=
  length (List.filter (Nat.eqb d) (degrees junctions)).

(** The region [identify_junction_regions] emits for one junction point, if
    it emits one. *)
Definition region_for {ext : Collaborators} (mesh : PolyData)
    (radius_factor : float) (junction_point : coord) : option UnstructuredGrid :=
  match Region.region_point_ids (points mesh) junction_point radius_factor with
  | Ok ids => if 0 <? length ids then Some (extract_points mesh ids) else None
  | Raise _ => None
  end.

(** The number of entries of [l] that [k] equals under [==]. *)
Definition occurrences (k : coord) (l : list coord) : nat :=
  length (List.filter (coord_eqb k) l).

(** The entries of [l] that no earlier entry equals under [==], in the order
    of [l]. *)
Fixpoint first_seen (l : list coord) : list coord :=
  match l with
  | [] => []
  | k :: l' => k :: List.filter (fun q => negb (coord_eqb k q)) (first_seen l')
  end.

(** Every vessel list of the dictionary is as long as its key has equals in
    [seen]; a key that does not equal itself holds one index. *)
Definition tallied (d : list (coord * list nat)) (seen : list coord) : Prop :=
  Forall (fun entry =>
            length (snd entry)
            = occurrences (fst entry) seen
              + (if coord_eqb (fst entry) (fst entry) then 0 else 1)) d.

(** * Theorems *)

(** ** The detector *)

Section DetectorFacts.

Import Detector.

(** *** Equality of floats and of coordinate tuples *)

Lemma SFeqb_true (x y : SpecFloat.spec_float) :
  SpecFloat.SFeqb x y = true ->
  (exists s1 s2, x = SpecFloat.S754_zero s1 /\ y = SpecFloat.S754_zero s2)
  \/ (x = y /\ x <> SpecFloat.S754_nan).
Proof.
  unfold SpecFloat.SFeqb.
  destruct x as [s1|s1| |s1 m1 e1], y as [s2|s2| |s2 m2 e2]; simpl;
    try discriminate; try (destruct s1; discriminate);
    try (destruct s2; discriminate).
  - intros _. left. eauto.
  - destruct s1, s2; try discriminate; intros _; right; split; congruence.
  - destruct s1, s2; try discriminate;
      destruct (Z.compare e1 e2) eqn:Ee; try discriminate;
      destruct (Pos.compare_cont Eq m1 m2) eqn:Em; try discriminate;
      intros _; right; apply Z.compare_eq in Ee; apply Pos.compare_eq in Em;
      subst; split; congruence.
Qed.

Lemma SFeqb_sym (x y : SpecFloat.spec_float) :
  SpecFloat.SFeqb x y = true -> SpecFloat.SFeqb y x = true.
Proof.
  intros H. destruct (SFeqb_true _ _ H) as [(s1 & s2 & -> & ->)|[<- _]];
    [reflexivity|exact H].
Qed.

Lemma SFeqb_trans (x y z : SpecFloat.spec_float) :
  SpecFloat.SFeqb x y = true -> SpecFloat.SFeqb y z = true ->
  SpecFloat.SFeqb x z = true.
Proof.
  intros H1 H2.
  destruct (SFeqb_true _ _ H1) as [(s1 & s2 & -> & ->)|[<- _]]; [|exact H2].
  destruct (SFeqb_true _ _ H2) as [(s3 & s4 & _ & ->)|[<- _]]; reflexivity.
Qed.

Lemma float_eqb_sym (a b : float) :
  PrimFloat.eqb a b = true -> PrimFloat.eqb b a = true.
Proof. rewrite !FloatAxioms.eqb_spec. apply SFeqb_sym. Qed.

Lemma float_eqb_trans (a b c : float) :
  PrimFloat.eqb a b = true -> PrimFloat.eqb b c = true -> PrimFloat.eqb a c = true.
Proof. rewrite !FloatAxioms.eqb_spec. apply SFeqb_trans. Qed.

Lemma coord_eqb_true (a b : coord) :
  coord_eqb a b = true <->
  PrimFloat.eqb (fst (fst a)) (fst (fst b)) = true /\
  PrimFloat.eqb (snd (fst a)) (snd (fst b)) = true /\
  PrimFloat.eqb (snd a) (snd b) = true.
Proof.
  destruct a as [[ax ay] az], b as [[bx by_] bz]. unfold coord_eqb. simpl.
  rewrite !andb_true_iff. tauto.
Qed.

Lemma coord_eqb_sym (a b : coord) : coord_eqb a b = true -> coord_eqb b a = true.
Proof.
  rewrite !coord_eqb_true. intros (H1 & H2 & H3).
  repeat split; now apply float_eqb_sym.
Qed.

Lemma coord_eqb_trans (a b c : coord) :
  coord_eqb a b = true -> coord_eqb b c = true -> coord_eqb a c = true.
Proof.
  rewrite !coord_eqb_true. intros (H1 & H2 & H3) (G1 & G2 & G3).
  repeat split; eapply float_eqb_trans; eassumption.
Qed.

Lemma coord_eqb_sym_false (a b : coord) :
  coord_eqb a b = false -> coord_eqb b a = false.
Proof.
  intros H. destruct (coord_eqb b a) eqn:E; [|reflexivity].
  apply coord_eqb_sym in E. congruence.
Qed.

(** *** The endpoint dictionary groups equal coordinates *)

Lemma append_vessel_keys d k i entry :
  entry ∈ append_vessel d k i -> fst entry = k \/ exists e, e ∈ d /\ fst e = fst entry.
Proof.
  induction d as [|[k' l'] d IH]; simpl.
  - intros H. apply list_elem_of_singleton in H. subst. now left.
  - destruct (coord_eqb k' k).
    + intros H. right. apply elem_of_cons in H as [->|H].
      * exists (k', l'). split; [left|reflexivity].
      * exists entry. split; [now right|reflexivity].
    + intros H. apply elem_of_cons in H as [->|H].
      * right. exists (k', l'). split; [left|reflexivity].
      * destruct (IH H) as [Hk|(e & He & Hfst)]; [now left|].
        right. exists e. split; [now right|exact Hfst].
Qed.

Lemma append_vessel_keys_apart d k i : keys_apart d -> keys_apart (append_vessel d k i).
Proof.
  induction d as [|[k' l'] d IH]; simpl.
  - intros _. split; [constructor|exact I].
  - intros [Hhead Htail]. destruct (coord_eqb k' k) eqn:E; simpl.
    + split; assumption.
    + split; [|now apply IH].
      apply Forall_forall. intros entry Hentry.
      destruct (append_vessel_keys _ _ _ _ Hentry) as [->|(e & He & <-)];
        [exact E|].
      rewrite Forall_forall in Hhead. now apply Hhead.
Qed.

Lemma append_vessel_hit d k i :
  coord_eqb k k = true ->
  exists key l, (key, l) ∈ append_vessel d k i /\ coord_eqb key k = true /\ i ∈ l.
Proof.
  intros Hrefl. induction d as [|[k' l'] d IH]; simpl.
  - exists k, [i]. repeat split; [left|exact Hrefl|left].
  - destruct (coord_eqb k' k) eqn:E.
    + exists k', (l' ++ [i]). repeat split; [left|exact E|].
      apply elem_of_app. right. left.
    + destruct IH as (key & l & Hin & Hkey & Hi).
      exists key, l. repeat split; [now right|exact Hkey|exact Hi].
Qed.

Lemma append_vessel_keeps d k i key l :
  (key, l) ∈ d ->
  exists l', (key, l') ∈ append_vessel d k i /\ forall x, x ∈ l -> x ∈ l'.
Proof.
  induction d as [|[k' l'] d IH]; simpl; intros Hin.
  - now apply elem_of_nil in Hin.
  - apply elem_of_cons in Hin as [[= -> ->]|Hin].
    + destruct (coord_eqb k' k).
      * exists (l' ++ [i]). split; [left|].
        intros x Hx. apply elem_of_app. now left.
      * exists l'. split; [left|auto].
    + destruct (coord_eqb k' k).
      * exists l. split; [now right|auto].
      * destruct (IH Hin) as (l0 & Hl0 & Hsub). exists l0. split; [now right|exact Hsub].
Qed.

Lemma scan_endpoints_keys_apart vs : forall i d,
  keys_apart d -> keys_apart (scan_endpoints vs i d).
Proof.
  induction vs as [|v vs IH]; intros i d Hd; simpl; [exact Hd|].
  apply IH. now do 2 apply append_vessel_keys_apart.
Qed.

Lemma scan_endpoints_keeps vs : forall i d key l,
  (key, l) ∈ d ->
  exists l', (key, l') ∈ scan_endpoints vs i d /\ forall x, x ∈ l -> x ∈ l'.
Proof.
  induction vs as [|v vs IH]; intros i d key l Hin; simpl.
  - exists l. split; [exact Hin|auto].
  - destruct (append_vessel_keeps d (proximal v) i key l Hin) as (l1 & H1 & S1).
    destruct (append_vessel_keeps _ (distal v) i key l1 H1) as (l2 & H2 & S2).
    destruct (IH (S i) _ key l2 H2) as (l3 & H3 & S3).
    exists l3. split; [exact H3|auto].
Qed.

Lemma scan_endpoints_hit vs : forall i d j v p,
  vs !! j = Some v -> endpoint_of v p -> coord_eqb p p = true ->
  exists key l,
    (key, l) ∈ scan_endpoints vs i d /\ coord_eqb key p = true /\ (i + j) ∈ l.
Proof.
  induction vs as [|v0 vs IH]; intros i d j v p Hj Hp Hrefl.
  - now rewrite lookup_nil in Hj.
  - destruct j as [|j]; simpl in Hj |- *.
    + injection Hj as ->. replace (i + 0) with i by lia.
      assert (Hhit : exists key l,
                 (key, l) ∈ append_vessel (append_vessel d (proximal v) i) (distal v) i
                 /\ coord_eqb key p = true /\ i ∈ l).
      { destruct Hp as [->| ->].
        - destruct (append_vessel_hit d (proximal v) i Hrefl) as (key & l & H1 & Hk & Hi).
          destruct (append_vessel_keeps _ (distal v) i key l H1) as (l' & H2 & Hs).
          exists key, l'. repeat split; [exact H2|exact Hk|auto].
        - apply append_vessel_hit. exact Hrefl. }
      destruct Hhit as (key & l & Hin & Hk & Hi).
      destruct (scan_endpoints_keeps vs (S i) _ key l Hin) as (l' & Hin' & Hs).
      exists key, l'. repeat split; [exact Hin'|exact Hk|auto].
    + replace (i + S j) with (S i + j) by lia. eapply IH; eassumption.
Qed.

Lemma keys_apart_unique d e1 e2 :
  keys_apart d -> e1 ∈ d -> e2 ∈ d -> coord_eqb (fst e1) (fst e2) = true -> e1 = e2.
Proof.
  induction d as [|e d IH]; simpl.
  - intros _ H1. now apply elem_of_nil in H1.
  - intros [Hhead Htail] H1 H2 Heq. rewrite Forall_forall in Hhead.
    apply elem_of_cons in H1 as [->|H1], H2 as [->|H2].
    + reflexivity.
    + rewrite (Hhead _ H2) in Heq. discriminate.
    + apply coord_eqb_sym in Heq. rewrite (Hhead _ H1) in Heq. discriminate.
    + now apply IH.
Qed.

Lemma two_members_length (l : list nat) i j : i ∈ l -> j ∈ l -> i <> j -> 2 <= length l.
Proof.
  intros Hi Hj Hne. destruct l as [|a [|b l]]; simpl; [| |lia].
  - now apply elem_of_nil in Hi.
  - apply list_elem_of_singleton in Hi, Hj. congruence.
Qed.

Lemma collect_junctions_complete items : forall junction_id junctions junction_coords,
  (forall entry, entry ∈ junctions ->
     entry ∈ fst (collect_junctions items junction_id junctions junction_coords))
  /\ (forall c l, (c, l) ∈ items -> 2 <= length l ->
        exists jid,
          (jid, l) ∈ fst (collect_junctions items junction_id junctions junction_coords)).
Proof.
  induction items as [|[c l] items IH]; intros jid js cs; simpl.
  - split; [auto|]. intros c l H. now apply elem_of_nil in H.
  - destruct (1 <? length l) eqn:E.
    + destruct (IH (S jid) (js ++ [(jid, l)]) (cs ++ [c])) as [Hkeep Hnew]. split.
      * intros entry Hentry. apply Hkeep. apply elem_of_app. now left.
      * intros c0 l0 Hin Hlen. apply elem_of_cons in Hin as [[= -> ->]|Hin].
        -- exists jid. apply Hkeep. apply elem_of_app. right. left.
        -- now apply Hnew with c0.
    + destruct (IH jid js cs) as [Hkeep Hnew]. split; [exact Hkeep|].
      intros c0 l0 Hin Hlen. apply elem_of_cons in Hin as [[= -> ->]|Hin].
      * apply Nat.ltb_ge in E. lia.
      * now apply Hnew with c0.
Qed.

(** Two different vessels with endpoints equal under [==] sit in the vessel
    list of one junction. *)
Lemma equal_endpoints_share_a_junction {TreeMap Connectivity : Type}
    (tree_data : TreeData) (vessel_map : TreeMap) (connectivity : Connectivity)
    (tolerance : float) i j v w p q :
  tree_data !! i = Some v -> tree_data !! j = Some w -> i <> j ->
  endpoint_of v p -> endpoint_of w q -> coord_eqb p q = true ->
  exists jid l,
    (jid, l) ∈ fst (detect_junctions tree_data vessel_map connectivity tolerance)
    /\ i ∈ l /\ j ∈ l.
Proof.
  intros Hi Hj Hne Hp Hq Hpq.
  assert (Hpp : coord_eqb p p = true)
    by (eapply coord_eqb_trans; [exact Hpq|now apply coord_eqb_sym]).
  assert (Hqq : coord_eqb q q = true)
    by (eapply coord_eqb_trans; [apply coord_eqb_sym; exact Hpq|exact Hpq]).
  destruct (scan_endpoints_hit tree_data 0 [] i v p Hi Hp Hpp) as (k1 & l1 & H1 & E1 & M1).
  destruct (scan_endpoints_hit tree_data 0 [] j w q Hj Hq Hqq) as (k2 & l2 & H2 & E2 & M2).
  simpl in M1, M2. fold (point_to_vessels tree_data) in H1, H2.
  assert (Hsame : (k1, l1) = (k2, l2)).
  { apply (keys_apart_unique (point_to_vessels tree_data)); [|exact H1|exact H2|].
    - apply scan_endpoints_keys_apart. exact I.
    - simpl. eapply coord_eqb_trans; [|apply coord_eqb_sym; exact E2].
      eapply coord_eqb_trans; [exact E1|exact Hpq]. }
  injection Hsame as <- <-.
  destruct (collect_junctions_complete (point_to_vessels tree_data) 0 [] []) as [_ Hnew].
  destruct (Hnew k1 l1 H1 (two_members_length l1 i j M1 M2 Hne)) as [jid Hjid].
  exists jid, l1. repeat split; assumption.
Qed.

Lemma append_vessel_groups (tree_data : TreeData) d k i v :
  tree_data !! i = Some v -> k = proximal v \/ k = distal v ->
  (forall c l, (c, l) ∈ d -> forall j, j ∈ l -> ends_at tree_data j c) ->
  forall c l, (c, l) ∈ append_vessel d k i ->
  forall j, j ∈ l -> ends_at tree_data j c.
Proof.
  intros Hv Hk.
  assert (Hnew : forall c, same_key c k -> ends_at tree_data i c).
  { intros c Hc. exists v. split; [exact Hv|].
    destruct Hk as [<-|<-]; [left|right]; exact Hc. }
  induction d as [|[k' l'] d IH]; simpl; intros Hd c l Hin j Hj.
  - apply list_elem_of_singleton in Hin. injection Hin as -> ->.
    apply list_elem_of_singleton in Hj. subst j. apply Hnew. now left.
  - destruct (coord_eqb k' k) eqn:E.
    + apply elem_of_cons in Hin as [Heq|Hin].
      * injection Heq as -> ->. apply elem_of_app in Hj as [Hj|Hj].
        -- eapply Hd; [left|exact Hj].
        -- apply list_elem_of_singleton in Hj. subst j. apply Hnew. now right.
      * eapply Hd; [right; exact Hin|exact Hj].
    + apply elem_of_cons in Hin as [Heq|Hin].
      * injection Heq as -> ->. eapply Hd; [left|exact Hj].
      * eapply IH; [|exact Hin|exact Hj].
        intros c0 l0 H0. apply Hd. now right.
Qed.

Lemma scan_endpoints_groups (tree_data : TreeData) vs : forall pre d,
  tree_data = pre ++ vs ->
  (forall c l, (c, l) ∈ d -> forall j, j ∈ l -> ends_at tree_data j c) ->
  forall c l, (c, l) ∈ scan_endpoints vs (length pre) d ->
  forall j, j ∈ l -> ends_at tree_data j c.
Proof.
  induction vs as [|v vs IH]; simpl; intros pre d Htd Hd; [exact Hd|].
  assert (Hv : tree_data !! length pre = Some v).
  { subst tree_data. now apply list_lookup_middle. }
  replace (S (length pre)) with (length (pre ++ [v])) by (rewrite length_app; simpl; lia).
  apply IH.
  - now rewrite <- app_assoc.
  - eapply append_vessel_groups; [exact Hv|now right|].
    eapply append_vessel_groups; [exact Hv|now left|exact Hd].
Qed.

Lemma point_to_vessels_groups (tree_data : TreeData) c l j :
  (c, l) ∈ point_to_vessels tree_data -> j ∈ l -> ends_at tree_data j c.
Proof.
  intros Hin Hj. unfold point_to_vessels in Hin.
  eapply (scan_endpoints_groups tree_data tree_data [] []); eauto.
  intros ? ? H. now apply elem_of_nil in H.
Qed.

Lemma collect_junctions_aligned (P : coord -> list nat -> Prop) items :
  forall junction_id junctions junction_coords,
  length junctions = junction_id ->
  aligned P junctions junction_coords ->
  (forall c l, (c, l) ∈ items -> 2 <= length l -> P c l) ->
  aligned P (fst (collect_junctions items junction_id junctions junction_coords))
            (snd (collect_junctions items junction_id junctions junction_coords)).
Proof.
  induction items as [|[c l] items IH]; simpl; intros jid js cs Hlen Hal Hitems;
    [exact Hal|].
  destruct (1 <? length l) eqn:E.
  - apply IH.
    + rewrite length_app. simpl. lia.
    + destruct Hal as [Hl Hal]. split.
      * rewrite !length_app. simpl. lia.
      * intros k j l0 Hk. apply lookup_snoc_Some in Hk as [[Hlt Hk]|[-> Heq]].
        -- destruct (Hal _ _ _ Hk) as (-> & c0 & Hc0 & HP). split; [reflexivity|].
           exists c0. split; [|exact HP]. now apply lookup_app_l_Some.
        -- injection Heq as <- <-. split; [lia|]. exists c. split.
           ++ rewrite Hl. now apply list_lookup_middle.
           ++ apply Hitems; [left|]. apply Nat.ltb_lt in E. lia.
    + intros c0 l0 H0. apply Hitems. now right.
  - apply IH; [exact Hlen|exact Hal|]. intros c0 l0 H0. apply Hitems. now right.
Qed.

(** Every junction the detector emits: its id is its position, its coordinate
    sits at the same position of the coordinate array, its vessel list is the
    list stored under that coordinate and has at least two entries. *)
Lemma detect_junctions_aligned {TreeMap Connectivity : Type} (tree_data : TreeData)
    (vessel_map : TreeMap) (connectivity : Connectivity) (tolerance : float) :
  aligned (fun c l => (c, l) ∈ point_to_vessels tree_data /\ 2 <= length l)
    (fst (detect_junctions tree_data vessel_map connectivity tolerance))
    (snd (detect_junctions tree_data vessel_map connectivity tolerance)).
Proof.
  unfold detect_junctions. apply collect_junctions_aligned.
  - reflexivity.
  - split; [reflexivity|]. intros k j l H. now rewrite lookup_nil in H.
  - intros c l Hin Hlen. now split.
Qed.

End DetectorFacts.

Lemma detect_junctions_same_length {TreeMap Connectivity : Type} (tree_data : TreeData)
    (vessel_map : TreeMap) (connectivity : Connectivity) (tolerance : float) :
  length (fst (Detector.detect_junctions tree_data vessel_map connectivity tolerance))
  = length (snd (Detector.detect_junctions tree_data vessel_map connectivity tolerance)).
Proof. exact (proj1 (detect_junctions_aligned tree_data vessel_map connectivity tolerance)). Qed.

(** C4: for every vessel set and every two tolerances, [detect_junctions]
    returns the same junction map and the same coordinate array: the
    tolerance plays no part.  Matching is equality of the coordinate tuples:
    two different vessels with an endpoint each that are equal under [==]
    share a junction; every vessel listed under a junction has an endpoint
    equal to the junction's coordinate; and two endpoints 2^-30 apart are not
    matched, whatever the tolerance. *)
Theorem detect_junctions_ignores_tolerance {TreeMap Connectivity : Type}
    (tree_data : TreeData) (vessel_map : TreeMap) (connectivity : Connectivity)
    (t1 t2 : float) :
  Detector.detect_junctions tree_data vessel_map connectivity t1
  = Detector.detect_junctions tree_data vessel_map connectivity t2
  /\ (forall i j v w p q,
        tree_data !! i = Some v -> tree_data !! j = Some w -> i <> j ->
        endpoint_of v p -> endpoint_of w q -> coord_eqb p q = true ->
        exists jid l,
          (jid, l) ∈ fst (Detector.detect_junctions tree_data vessel_map
                            connectivity t1)
          /\ i ∈ l /\ j ∈ l)
  /\ (forall jid l i,
        (jid, l) ∈ fst (Detector.detect_junctions tree_data vessel_map
                          connectivity t1) ->
        i ∈ l ->
        exists c,
          snd (Detector.detect_junctions tree_data vessel_map connectivity t1)
            !! jid = Some c
          /\ ends_at tree_data i c)
  /\ Detector.detect_junctions Examples.near_miss vessel_map connectivity t1 = ([], []).
Proof.
  split; [reflexivity|]. split; [|split; [|reflexivity]].
  - intros i j v w p q. apply equal_endpoints_share_a_junction.
  - intros jid l i Hin Hi. apply list_elem_of_lookup in Hin as [k Hk].
    destruct (detect_junctions_aligned tree_data vessel_map connectivity t1)
      as [_ Hal].
    destruct (Hal _ _ _ Hk) as (-> & c & Hc & Hitem & _).
    exists c. split; [exact Hc|]. eapply point_to_vessels_groups; eauto.
Qed.

Lemma detect_junctions_ignores_tolerance_witness :
  Detector.detect_junctions Examples.two_vessels tt tt 1%float
  = Detector.detect_junctions Examples.two_vessels tt tt Detector.default_tolerance
  /\ exists jid l,
       (jid, l) ∈ fst (Detector.detect_junctions Examples.two_vessels tt tt 1%float)
       /\ 0 ∈ l /\ 1 ∈ l.
Proof.
  pose proof (detect_junctions_ignores_tolerance Examples.two_vessels tt tt
                1%float Detector.default_tolerance) as (Hsame & Hshare & _).
  split; [exact Hsame|].
  apply (Hshare 0 1 (Examples.vessel (-5, 0, 0)%float Examples.origin)
           (Examples.vessel Examples.origin (0, 5, 0)%float)
           Examples.origin Examples.origin).
  - reflexivity.
  - reflexivity.
  - discriminate.
  - right. reflexivity.
  - left. reflexivity.
  - reflexivity.
Defined.

(** C5: every junction [detect_junctions] emits has degree at least 2: the
    vessel list under a junction id has at least two entries; it is the list
    stored under the junction's coordinate in the endpoint dictionary, and each
    entry is the index of a vessel with an endpoint at that coordinate. *)
Theorem detect_junctions_degree_at_least_two {TreeMap Connectivity : Type}
    (tree_data : TreeData) (vessel_map : TreeMap) (connectivity : Connectivity)
    (tolerance : float) (junction_id : nat) (vessel_list : list nat) :
  (junction_id, vessel_list)
    ∈ fst (Detector.detect_junctions tree_data vessel_map connectivity tolerance) ->
  2 <= length vessel_list /\
  exists c,
    snd (Detector.detect_junctions tree_data vessel_map connectivity tolerance)
      !! junction_id = Some c /\
    (c, vessel_list) ∈ Detector.point_to_vessels tree_data /\
    forall i, i ∈ vessel_list -> ends_at tree_data i c.
Proof.
  intros Hin. apply list_elem_of_lookup in Hin as [k Hk].
  destruct (detect_junctions_aligned tree_data vessel_map connectivity tolerance)
    as [_ Hal].
  destruct (Hal _ _ _ Hk) as (-> & c & Hc & Hitem & Hdeg).
  split; [exact Hdeg|]. exists c. split; [exact Hc|]. split; [exact Hitem|].
  intros i Hi. eapply point_to_vessels_groups; eauto.
Qed.

Lemma detect_junctions_degree_witness :
  (0, [0; 1]) ∈ fst (Detector.detect_junctions Examples.two_vessels tt tt
                       Detector.default_tolerance) /\
  2 <= length [0; 1] /\
  exists c,
    snd (Detector.detect_junctions Examples.two_vessels tt tt Detector.default_tolerance)
      !! 0 = Some c /\
    (c, [0; 1]) ∈ Detector.point_to_vessels Examples.two_vessels /\
    forall i, i ∈ [0; 1] -> ends_at Examples.two_vessels i c.
Proof.
  assert (H : (0, [0; 1]) ∈ fst (Detector.detect_junctions Examples.two_vessels tt tt
                                   Detector.default_tolerance)).
  { vm_compute. apply list_elem_of_here. }
  split; [exact H|].
  exact (detect_junctions_degree_at_least_two Examples.two_vessels tt tt
           Detector.default_tolerance 0 [0; 1] H).
Defined.

(** C10: for every vessel set and any two values of [vessel_map] and of
    [connectivity], [detect_junctions] returns the same junction map and the
    same coordinate array: the result is computed from [tree_data] alone. *)
Theorem detect_junctions_reads_tree_data_only
    {TreeMap1 Connectivity1 TreeMap2 Connectivity2 : Type}
    (tree_data : TreeData)
    (vessel_map1 : TreeMap1) (connectivity1 : Connectivity1)
    (vessel_map2 : TreeMap2) (connectivity2 : Connectivity2) (tolerance : float) :
  Detector.detect_junctions tree_data vessel_map1 connectivity1 tolerance
  = Detector.detect_junctions tree_data vessel_map2 connectivity2 tolerance
  /\ Detector.detect_junctions tree_data vessel_map1 connectivity1 tolerance
     = Detector.collect_junctions (Detector.point_to_vessels tree_data) 0 [] [].
Proof. split; reflexivity. Qed.

(** ** The basic path without junctions *)

(** C6: when the detector finds no junction, [apply_junction_smoothing]
    returns the input mesh itself, raises nothing, and prints the one notice
    that no junction was detected. *)
Theorem apply_junction_smoothing_without_junctions {ext : Collaborators}
    {TreeMap Connectivity : Type} (mesh : PolyData) (tree_data : TreeData)
    (vessel_map : TreeMap) (connectivity : Connectivity)
    (smoothing_radius_factor : float) (smoothing_iterations : nat)
    (relaxation_factor tolerance : float) :
  fst (Detector.detect_junctions tree_data vessel_map connectivity tolerance) = [] ->
  Basic.apply_junction_smoothing mesh tree_data vessel_map connectivity
    smoothing_radius_factor smoothing_iterations relaxation_factor
  = (["No junctions detected for smoothing."%string], Ok mesh).
Proof.
  intros Hnone.
  pose proof (detect_junctions_same_length tree_data vessel_map connectivity
                Detector.default_tolerance) as Hlen.
  unfold Basic.apply_junction_smoothing.
  change (Detector.detect_junctions tree_data vessel_map connectivity tolerance)
    with (Detector.detect_junctions tree_data vessel_map connectivity
            Detector.default_tolerance) in Hnone.
  destruct (Detector.detect_junctions tree_data vessel_map connectivity
              Detector.default_tolerance) as [junctions junction_points].
  simpl in *. subst junctions. simpl in Hlen. rewrite <- Hlen. reflexivity.
Qed.

Lemma apply_junction_smoothing_without_junctions_witness :
  fst (Detector.detect_junctions Examples.lone_vessel tt tt Detector.default_tolerance) = []
  /\ @Basic.apply_junction_smoothing Examples.adjacent_tube _ _ Examples.triangle
       Examples.lone_vessel tt tt 2%float 5 0x1.999999999999ap-4%float
     = (["No junctions detected for smoothing."%string], Ok Examples.triangle).
Proof.
  split; [reflexivity|].
  apply (@apply_junction_smoothing_without_junctions Examples.adjacent_tube _ _
           Examples.triangle Examples.lone_vessel tt tt 2%float 5
           0x1.999999999999ap-4%float Detector.default_tolerance).
  reflexivity.
Defined.

(** ** The statistics reporter *)

Section StatisticsFacts.

Import Statistics.

Lemma sum_values_comm (j1 j2 z1 z2 y : nat) : z1 + (z2 + y) = z2 + (z1 + y).
Proof. lia. Qed.

Lemma sum_values_insert (m : gmap nat nat) k v :
  sum_values (<[k := v]> m) + default 0 (m !! k) = v + sum_values m.
Proof.
  unfold sum_values. destruct (m !! k) as [w|] eqn:E; simpl.
  - rewrite (map_fold_delete_L _ _ k w m); [|intros; apply sum_values_comm; assumption|exact E].
    rewrite <- (insert_delete_eq m).
    rewrite map_fold_insert_L;
      [lia|intros; apply sum_values_comm; assumption|apply lookup_delete_eq].
  - rewrite map_fold_insert_L; [lia|intros; apply sum_values_comm; assumption|exact E].
Qed.

Lemma sum_values_count_type (m : gmap nat nat) (vessel_list : list nat) :
  sum_values (count_type m vessel_list) = S (sum_values m).
Proof.
  unfold count_type.
  pose proof (sum_values_insert m (length vessel_list)
                (default 0 (m !! length vessel_list) + 1)) as H.
  lia.
Qed.

Lemma sum_values_histogram (values : list (list nat)) : forall m : gmap nat nat,
  sum_values (fold_left count_type values m) = length values + sum_values m.
Proof.
  induction values as [|l values IH]; intros m; simpl; [reflexivity|].
  rewrite IH, sum_values_count_type. lia.
Qed.

Lemma sum_values_empty : sum_values ∅ = 0.
Proof. unfold sum_values. apply map_fold_empty. Qed.

End StatisticsFacts.

(** C7: [get_junction_statistics] reports an average of 0 when there is no
    junction and otherwise the arithmetic mean of the junction degrees as
    [np.mean] computes it, the float64 quotient of their sum by their number;
    the values of [junction_types] add up to [total_junctions], the number of
    junctions detected. *)
Theorem get_junction_statistics_summary {TreeMap Connectivity : Type}
    (tree_data : TreeData) (vessel_map : TreeMap) (connectivity : Connectivity) :
  let junctions :=
    fst (Detector.detect_junctions tree_data vessel_map connectivity
           Detector.default_tolerance) in
  let stats := Statistics.get_junction_statistics tree_data vessel_map connectivity in
  Statistics.total_junctions stats = length junctions /\
  (length junctions = 0 -> Statistics.average_vessels_per_junction stats = 0%float) /\
  (0 < length junctions ->
   Statistics.average_vessels_per_junction stats
   = PrimFloat.div (Statistics.float_of_nat (sum_list (degrees junctions)))
       (Statistics.float_of_nat (length junctions))) /\
  Statistics.sum_values (Statistics.junction_types stats)
  = Statistics.total_junctions stats.
Proof.
  unfold Statistics.get_junction_statistics.
  destruct (Detector.detect_junctions tree_data vessel_map connectivity
              Detector.default_tolerance) as [junctions junction_points].
  simpl fst. destruct (length junctions =? 0) eqn:E;
    cbn [Statistics.total_junctions Statistics.junction_types
         Statistics.average_vessels_per_junction].
  - apply Nat.eqb_eq in E. destruct junctions; [|discriminate E].
    repeat split; try reflexivity. simpl. lia.
  - apply Nat.eqb_neq in E. split; [reflexivity|]. split; [intros H; contradiction|].
    split.
    + intros _. unfold Statistics.np_mean. rewrite map_map.
      change (map _ junctions) with (degrees junctions).
      unfold degrees. now rewrite length_map.
    + rewrite sum_values_histogram, sum_values_empty, length_map. lia.
Qed.

Lemma get_junction_statistics_summary_witness :
  Statistics.average_vessels_per_junction
    (Statistics.get_junction_statistics Examples.lone_vessel tt tt) = 0%float
  /\ Statistics.average_vessels_per_junction
       (Statistics.get_junction_statistics Examples.three_junctions tt tt)
     = 0x1.2aaaaaaaaaaabp+1%float
  /\ Statistics.average_vessels_per_junction
       (Statistics.get_junction_statistics Examples.five_vessels tt tt) = 3%float
  /\ Statistics.sum_values
       (Statistics.junction_types
          (Statistics.get_junction_statistics Examples.five_vessels tt tt)) = 2.
Proof.
  split; [|split; [|split]].
  - apply (get_junction_statistics_summary Examples.lone_vessel tt tt). reflexivity.
  - rewrite (proj1 (proj2 (proj2
               (get_junction_statistics_summary Examples.three_junctions tt tt))));
      [reflexivity|vm_compute; lia].
  - rewrite (proj1 (proj2 (proj2
               (get_junction_statistics_summary Examples.five_vessels tt tt))));
      [reflexivity|vm_compute; lia].
  - exact (eq_trans
             (proj2 (proj2 (proj2
                (get_junction_statistics_summary Examples.five_vessels tt tt))))
             (proj1 (get_junction_statistics_summary Examples.five_vessels tt tt))).
Defined.

(** C8, at a tree without junction: the record [get_junction_statistics]
    returns holds the count, the empty histogram and the zero average, and no
    junction coordinate array; with junctions the array is there. *)
Theorem get_junction_statistics_without_junctions_has_no_coordinates :
  Statistics.junction_coordinates
    (Statistics.get_junction_statistics Examples.lone_vessel tt tt) = None
  /\ Statistics.junction_coordinates
       (Statistics.get_junction_statistics ([] : TreeData) tt tt) = None
  /\ Statistics.junction_coordinates
       (Statistics.get_junction_statistics Examples.two_vessels tt tt)
     = Some [Examples.origin].
Proof. repeat split; reflexivity. Qed.

(** ** The advanced path *)

Section AdvancedFacts.

Context {ext : Collaborators}.
Import Advanced.

(** The cap loop appends one cap per boundary, each computed with the element
    size resolved at the first boundary. *)
Lemma caps_loop_closed_form (mesh : PolyData) (boundaries : list DataSet) :
  forall i hsize caps out,
    snd (fst (caps_loop mesh boundaries i hsize caps out))
    = caps ++ map (regenerated_cap (resolve_hsize mesh hsize)) boundaries
    /\ fst (fst (caps_loop mesh boundaries i hsize caps out))
       = match boundaries with
         | [] => hsize
         | _ :: _ => Some (resolve_hsize mesh hsize)
         end.
Proof.
  induction boundaries as [|boundary rest IH]; intros i hsize caps out;
    cbn [caps_loop map].
  - split; [now rewrite app_nil_r|reflexivity].
  - cbv zeta. set (h := resolve_hsize mesh hsize).
    assert (Hrest : forall cap out',
      snd (fst (caps_loop mesh rest (S i) (Some h) (caps ++ [cap]) out'))
      = caps ++ cap :: map (regenerated_cap h) rest
      /\ fst (fst (caps_loop mesh rest (S i) (Some h) (caps ++ [cap]) out')) = Some h).
    { intros cap out'. destruct (IH (S i) (Some h) (caps ++ [cap]) out') as [Hc Hh].
      split.
      - rewrite Hc. now rewrite <- app_assoc.
      - rewrite Hh. now destruct rest. }
    destruct (n_points (to_polydata boundary) <? 3) eqn:E3.
    + replace (regenerated_cap h boundary) with (to_polydata boundary)
        by (unfold regenerated_cap; cbv zeta; now rewrite E3).
      apply Hrest.
    + destruct (remesh_surface (to_polydata boundary) true h) as [cap|e] eqn:Er.
      * replace (regenerated_cap h boundary) with cap
          by (unfold regenerated_cap; cbv zeta; now rewrite E3, Er).
        apply Hrest.
      * replace (regenerated_cap h boundary) with (to_polydata boundary)
          by (unfold regenerated_cap; cbv zeta; now rewrite E3, Er).
        apply Hrest.
Qed.

Lemma regenerated_cap_lookup (h : float) (boundaries : list DataSet) j boundary :
  boundaries !! j = Some boundary ->
  map (regenerated_cap h) boundaries !! j = Some (regenerated_cap h boundary).
Proof. intros H. now rewrite list_lookup_fmap, H. Qed.

End AdvancedFacts.

(** C9: with junctions detected and a single wall patch, a remesher failure
    on one boundary loop does not abort [smooth_junctions_advanced]: the
    function returns a mesh; the caps handed to the merge are one per loop,
    the loop's own surface where the remesher raised (or the loop has fewer
    than three points) and the remeshed loop wherever the remesher returned
    one; the result is the merge of the smoothed wall with these caps, or the
    input mesh when the merge itself fails. *)
Theorem remesh_failure_keeps_other_caps {ext : Collaborators}
    {TreeMap Connectivity : Type} (mesh : PolyData) (tree_data : TreeData)
    (vessel_map : TreeMap) (connectivity : Connectivity) (hsize : option float)
    (cap_resolution : nat) (faces : list PolyData) (wall : PolyData)
    (caps0 shared : list PolyData) :
  snd (Detector.detect_junctions tree_data vessel_map connectivity
         Detector.default_tolerance) <> [] ->
  extract_faces mesh = Ok (faces, [wall], caps0, shared) ->
  let smoothed := Advanced.smooth_wall wall in
  let boundaries :=
    split_bodies (extract_feature_edges smoothed false false false true) in
  let h := Advanced.resolve_hsize mesh hsize in
  let outcome :=
    snd (Advanced.smooth_junctions_advanced mesh tree_data vessel_map connectivity
           hsize cap_resolution) in
  exists caps : list PolyData,
    length caps = length boundaries /\
    (forall j boundary e,
        boundaries !! j = Some boundary ->
        3 <= n_points (Advanced.to_polydata boundary) ->
        remesh_surface (Advanced.to_polydata boundary) true h = Raise e ->
        caps !! j = Some (Advanced.to_polydata boundary)) /\
    (forall k boundary cap,
        boundaries !! k = Some boundary ->
        3 <= n_points (Advanced.to_polydata boundary) ->
        remesh_surface (Advanced.to_polydata boundary) true h = Ok cap ->
        caps !! k = Some cap) /\
    (forall k boundary,
        boundaries !! k = Some boundary ->
        n_points (Advanced.to_polydata boundary) < 3 ->
        caps !! k = Some (Advanced.to_polydata boundary)) /\
    is_ok outcome = true /\
    outcome = match merge (smoothed :: caps) with
              | Ok merged =>
                  Ok (set_hsize merged
                        match boundaries with [] => hsize | _ :: _ => Some h end)
              | Raise _ => Ok mesh
              end.
Proof.
  intros Hj Hfaces smoothed boundaries h outcome.
  exists (map (regenerated_cap h) boundaries).
  split; [apply length_map|].
  assert (Hcap : forall k boundary, boundaries !! k = Some boundary ->
            map (regenerated_cap h) boundaries !! k = Some (regenerated_cap h boundary)).
  { intros. now apply regenerated_cap_lookup. }
  split; [|split; [|split]].
  - intros j boundary e Hb Hn Hr. rewrite (Hcap _ _ Hb). unfold regenerated_cap.
    cbv zeta. apply Nat.ltb_ge in Hn. now rewrite Hn, Hr.
  - intros k boundary cap Hb Hn Hr. rewrite (Hcap _ _ Hb). unfold regenerated_cap.
    cbv zeta. apply Nat.ltb_ge in Hn. now rewrite Hn, Hr.
  - intros k boundary Hb Hn. rewrite (Hcap _ _ Hb). unfold regenerated_cap.
    cbv zeta. apply Nat.ltb_lt in Hn. now rewrite Hn.
  - assert (Hout : outcome
                   = match merge (smoothed :: map (regenerated_cap h) boundaries) with
                     | Ok merged =>
                         Ok (set_hsize merged
                               match boundaries with [] => hsize | _ :: _ => Some h end)
                     | Raise _ => Ok mesh
                     end).
    { subst outcome. unfold Advanced.smooth_junctions_advanced.
      destruct (Detector.detect_junctions tree_data vessel_map connectivity
                  Detector.default_tolerance) as [junctions junction_points].
      simpl in Hj. destruct junction_points as [|p ps]; [contradiction|].
      cbn [length Nat.eqb]. rewrite Hfaces. cbn [length Nat.eqb map].
      fold smoothed. fold boundaries.
      destruct (caps_loop_closed_form mesh boundaries 0 hsize []
                  [("Detected " ++ show_nat (length (p :: ps))
                    ++ " junctions for smoothing.")%string]) as [Hc Hh].
      destruct (Advanced.caps_loop mesh boundaries 0 hsize [] _) as [[hs caps] out].
      simpl in Hc, Hh. subst hs caps. fold h.
      now destruct (merge _). }
    rewrite Hout. split; [|reflexivity]. now destruct (merge _).
Qed.

Lemma remesh_failure_keeps_other_caps_witness :
  exists caps : list PolyData,
    caps !! 0 = Some (Examples.fan Examples.square_loop) /\
    caps !! 1 = Some (@extract_surface Examples.adjacent_tube Examples.pentagon_loop) /\
    caps !! 2 = Some Examples.segment_loop /\
    is_ok (snd (@Advanced.smooth_junctions_advanced Examples.adjacent_tube _ _
                  Examples.triangle Examples.two_vessels tt tt None 40)) = true.
Proof.
  destruct (@remesh_failure_keeps_other_caps Examples.adjacent_tube _ _
              Examples.triangle Examples.two_vessels tt tt None 40
              [Examples.triangle] Examples.triangle [] [])
    as (caps & Hlen & Hfail & Hdone & Hsmall & Hret & Hout).
  - vm_compute. discriminate.
  - reflexivity.
  - exists caps. split; [|split; [|split]].
    + apply (Hdone 0 (PolyBlock Examples.square_loop));
        [reflexivity|vm_compute; lia|reflexivity].
    + apply (Hfail 1 (GridBlock Examples.pentagon_loop)
               (RuntimeError "remeshing failed"));
        [reflexivity|vm_compute; lia|reflexivity].
    + apply (Hsmall 2 (PolyBlock Examples.segment_loop));
        [reflexivity|vm_compute; lia].
    + exact Hret.
Defined.

(** ** The row assignment, case by case *)

Section AssignRows.

Import Region Basic.

Lemma fold_insert_pairs_length (ivs : list (nat * coord)) : forall buf : list coord,
  length (fold_left (fun b iv => <[fst iv := snd iv]> b) ivs buf) = length buf.
Proof.
  induction ivs as [|iv ivs IH]; intros buf; simpl; [reflexivity|].
  now rewrite IH, length_insert.
Qed.

Lemma fold_insert_row_length (v : coord) (idx : list nat) : forall buf : list coord,
  length (fold_left (fun b i => <[i := v]> b) idx buf) = length buf.
Proof.
  induction idx as [|i idx IH]; intros buf; simpl; [reflexivity|].
  now rewrite IH, length_insert.
Qed.

Lemma assign_rows_length (buf : list coord) idx vals buf' :
  assign_rows buf idx vals = Ok buf' -> length buf' = length buf.
Proof.
  unfold assign_rows. destruct (negb _); [discriminate|].
  destruct (length vals =? length idx).
  - intros [= <-]. apply fold_insert_pairs_length.
  - destruct vals as [|v [|? ?]]; try discriminate.
    intros [= <-]. apply fold_insert_row_length.
Qed.

Lemma where_from_bounds (mask : list bool) : forall i j,
  j ∈ where_from mask i -> i <= j < i + length mask.
Proof.
  induction mask as [|b mask IH]; intros i j; simpl.
  - intros H. now apply elem_of_nil in H.
  - destruct b.
    + intros H. apply elem_of_cons in H as [->|H]; [lia|].
      apply IH in H. lia.
    + intros H. apply IH in H. lia.
Qed.

Lemma where_from_NoDup (mask : list bool) : forall i, NoDup (where_from mask i).
Proof.
  induction mask as [|b mask IH]; intros i; simpl; [constructor|].
  destruct b; [|apply IH]. constructor; [|apply IH].
  intros H. apply where_from_bounds in H. lia.
Qed.

(** The indices [np.where] returns are distinct and within the array. *)
Lemma np_where_indices (mask : list bool) :
  NoDup (np_where mask) /\ Forall (fun i => i < length mask) (np_where mask).
Proof.
  split; [apply where_from_NoDup|].
  apply Forall_forall. intros i Hi. apply where_from_bounds in Hi. lia.
Qed.

Lemma fold_insert_pairs_lookup (ivs : list (nat * coord)) : forall buf : list coord,
  NoDup (map fst ivs) ->
  Forall (fun iv => fst iv < length buf) ivs ->
  (forall i v, (i, v) ∈ ivs ->
     fold_left (fun b iv => <[fst iv := snd iv]> b) ivs buf !! i = Some v)
  /\ (forall i, i ∉ map fst ivs ->
        fold_left (fun b iv => <[fst iv := snd iv]> b) ivs buf !! i = buf !! i).
Proof.
  induction ivs as [|[i0 v0] ivs IH]; intros buf Hnd Hin; simpl.
  - split; [intros i v H; now apply elem_of_nil in H|reflexivity].
  - apply NoDup_cons in Hnd as [Hfresh Hnd].
    apply Forall_cons in Hin as [Hi0 Hin]. simpl in Hi0.
    destruct (IH (<[i0 := v0]> buf) Hnd) as [Hset Hkeep].
    { eapply Forall_impl; [exact Hin|]. intros iv H. now rewrite length_insert. }
    split.
    + intros i v H. apply elem_of_cons in H as [[= -> ->]|H]; [|now apply Hset].
      rewrite Hkeep by exact Hfresh. now apply list_lookup_insert_eq.
    + intros i Hi. apply not_elem_of_cons in Hi as [Hne Hi].
      rewrite Hkeep by exact Hi. now apply list_lookup_insert_ne.
Qed.

(** A value array with no more rows than there are indices: the first
    [length vals] indices receive the rows in order, every other entry of the
    buffer is left as it was. *)
Lemma assign_rows_overwrites_prefix (buf : list coord) (idx : list nat)
    (vals : list coord) :
  NoDup idx -> Forall (fun i => i < length buf) idx -> length vals <= length idx ->
  exists buf',
    assign_rows buf (take (length vals) idx) vals = Ok buf' /\
    length buf' = length buf /\
    (forall k i v, idx !! k = Some i -> vals !! k = Some v -> buf' !! i = Some v) /\
    (forall i, i ∉ take (length vals) idx -> buf' !! i = buf !! i).
Proof.
  intros Hnd Hin Hle.
  set (idx' := take (length vals) idx).
  assert (Hlen : length idx' = length vals) by (subst idx'; now apply length_take_le).
  assert (Hin' : Forall (fun i => i < length buf) idx')
    by (subst idx'; now apply Forall_take).
  assert (Hnd' : NoDup idx')
    by (subst idx'; eapply sublist_NoDup; [exact Hnd|apply sublist_take]).
  unfold assign_rows.
  replace (forallb (fun i => i <? length buf) idx') with true.
  2:{ symmetry. apply forallb_forall. intros i Hi. apply Nat.ltb_lt.
      rewrite Forall_forall in Hin'. apply Hin'. now apply list_elem_of_In. }
  cbn [negb]. rewrite Hlen, Nat.eqb_refl.
  destruct (fold_insert_pairs_lookup (zip idx' vals) buf) as [Hset Hkeep].
  { rewrite fst_zip by lia. exact Hnd'. }
  { apply Forall_forall. intros [i v] Hiv. apply elem_of_zip_l in Hiv.
    rewrite Forall_forall in Hin'. now apply Hin'. }
  eexists. split; [reflexivity|]. split; [apply fold_insert_pairs_length|]. split.
  - intros k i v Hi Hv. apply Hset. apply list_elem_of_lookup. exists k.
    apply lookup_zip_Some. split; [|exact Hv].
    subst idx'. rewrite lookup_take_lt; [exact Hi|]. now apply lookup_lt_Some in Hv.
  - intros i Hi. apply Hkeep. rewrite fst_zip by lia. exact Hi.
Qed.

(** A value array with more rows than there are indices: the assignment
    raises, whatever the buffer holds. *)
Lemma assign_rows_raises_on_more_rows (buf : list coord) (idx : list nat)
    (vals : list coord) :
  Forall (fun i => i < length buf) idx -> 0 < length idx -> length idx < length vals ->
  assign_rows buf (take (length vals) idx) vals
  = Raise (ValueError
      "shape mismatch: value array could not be broadcast to indexing result").
Proof.
  intros Hin Hpos Hlt. rewrite take_ge by lia. unfold assign_rows.
  replace (forallb (fun i => i <? length buf) idx) with true.
  2:{ symmetry. apply forallb_forall. intros i Hi. apply Nat.ltb_lt.
      rewrite Forall_forall in Hin. apply Hin. now apply list_elem_of_In. }
  cbn [negb]. replace (length vals =? length idx) with false
    by (symmetry; apply Nat.eqb_neq; lia).
  destruct vals as [|v [|w vals]]; simpl in Hlt; [lia|lia|reflexivity].
Qed.

End AssignRows.

(** ** Region isolation and the point write-back *)

Section RegionFacts.

Import Region.

Lemma SFmul_comm (prec emax : Z) (x y : SpecFloat.spec_float) :
  SpecFloat.SFmul prec emax x y = SpecFloat.SFmul prec emax y x.
Proof.
  destruct x as [sx|sx| |sx mx ex], y as [sy|sy| |sy my ey]; simpl;
    try reflexivity; try (now rewrite xorb_comm).
  now rewrite xorb_comm, Pos.mul_comm, Z.add_comm.
Qed.

Lemma float_mul_comm (a b : float) : PrimFloat.mul a b = PrimFloat.mul b a.
Proof.
  apply FloatAxioms.Prim2SF_inj. rewrite !FloatAxioms.mul_spec. apply SFmul_comm.
Qed.

(** The selection recomputed inside [apply_junction_smoothing] is the one
    [identify_junction_regions] made. *)
Lemma recomputed_point_ids_agrees (pts : list coord) (junction_point : coord)
    (radius_factor : float) :
  recomputed_point_ids pts junction_point radius_factor
  = region_point_ids pts junction_point radius_factor.
Proof.
  unfold recomputed_point_ids, region_point_ids. cbv zeta.
  destruct (np_min _) as [m|e]; [|reflexivity].
  cbn [mbind result_bind]. now rewrite (float_mul_comm radius_factor m).
Qed.

Lemma region_point_ids_returns (pts : list coord) (junction_point : coord)
    (radius_factor : float) :
  positive_entries (distances_to pts junction_point) <> [] ->
  exists ids,
    region_point_ids pts junction_point radius_factor = Ok ids /\
    NoDup ids /\ Forall (fun i => i < length pts) ids.
Proof.
  intros Hpos. unfold region_point_ids. cbv zeta.
  destruct (positive_entries _) as [|d ds]; [contradiction|].
  cbn [np_min mbind result_bind mret result_ret].
  eexists. split; [reflexivity|].
  match goal with |- context [np_where ?mask] =>
    destruct (np_where_indices mask) as [Hnd Hin];
    assert (Hlen : length mask = length pts)
      by (unfold distances_to; now rewrite !length_map)
  end.
  split; [exact Hnd|]. now rewrite <- Hlen.
Qed.

Lemma region_point_ids_raises (pts : list coord) (junction_point : coord)
    (radius_factor : float) :
  positive_entries (distances_to pts junction_point) = [] ->
  is_ok (region_point_ids pts junction_point radius_factor) = false.
Proof. intros H. unfold region_point_ids. cbv zeta. now rewrite H. Qed.

End RegionFacts.

Section BasicFacts.

Context {ext : Collaborators}.
Import Region Basic.

(** [identify_junction_regions] returns when every junction point has a mesh
    point at a positive distance, with at most one region per junction. *)
Lemma regions_loop_returns (mesh : PolyData) (junction_points : list coord)
    (radius_factor : float) : forall junction_regions,
  (forall jp, jp ∈ junction_points -> has_distant_point mesh jp) ->
  exists regions,
    regions_loop mesh junction_points radius_factor junction_regions = Ok regions /\
    length regions <= length junction_regions + length junction_points.
Proof.
  induction junction_points as [|jp rest IH]; intros acc Hall; cbn [regions_loop].
  - exists acc. split; [reflexivity|lia].
  - destruct (region_point_ids_returns (points mesh) jp radius_factor)
      as (ids & Hids & _); [apply Hall; left|].
    rewrite Hids. cbn [mbind result_bind].
    assert (Hrest : forall jp', jp' ∈ rest -> has_distant_point mesh jp')
      by (intros; apply Hall; now right).
    destruct (0 <? length ids).
    + destruct (IH (acc ++ [extract_points mesh ids]) Hrest) as (regions & Hr & Hl).
      exists regions. split; [exact Hr|]. rewrite length_app in Hl. simpl in *. lia.
    + destruct (IH acc Hrest) as (regions & Hr & Hl).
      exists regions. split; [exact Hr|]. simpl. lia.
Qed.

(** And it raises as soon as one junction point has none. *)
Lemma regions_loop_raises (mesh : PolyData) (junction_points : list coord)
    (radius_factor : float) : forall junction_regions,
  (exists jp, jp ∈ junction_points /\ ~ has_distant_point mesh jp) ->
  is_ok (regions_loop mesh junction_points radius_factor junction_regions) = false.
Proof.
  induction junction_points as [|jp rest IH]; intros acc (bad & Hin & Hbad).
  - now apply elem_of_nil in Hin.
  - cbn [regions_loop].
    destruct (positive_entries (distances_to (points mesh) jp)) as [|d ds] eqn:E.
    + unfold region_point_ids. cbv zeta. now rewrite E.
    + apply elem_of_cons in Hin as [->|Hin].
      { exfalso. apply Hbad. unfold has_distant_point. now rewrite E. }
      destruct (region_point_ids _ _ _); [|reflexivity]. cbn [mbind result_bind].
      destruct (0 <? length a); apply IH; exists bad; now split.
Qed.

Lemma only_points_differ_set_points (a b : PolyData) pts :
  only_points_differ a b -> length pts = length (points a) ->
  only_points_differ (set_points a pts) b.
Proof.
  intros (Hc & Hl & Hn & Hh) Hp. repeat split; simpl; congruence.
Qed.

(** The write-back loop changes nothing but point coordinates. *)
Lemma update_loop_frame (mesh : PolyData) (junction_points : list coord)
    (smoothing_radius_factor : float) (smoothing_iterations : nat)
    (relaxation_factor : float) (junction_regions : list UnstructuredGrid) :
  forall (i : nat) (smoothed_mesh result_mesh : PolyData),
    update_loop mesh junction_points smoothing_radius_factor smoothing_iterations
      relaxation_factor junction_regions i smoothed_mesh = Ok result_mesh ->
    only_points_differ smoothed_mesh mesh ->
    only_points_differ result_mesh mesh.
Proof.
  induction junction_regions as [|region rest IH]; intros i sm res; cbn [update_loop].
  - intros [= <-] H. exact H.
  - destruct (0 <? grid_n_points region); [|apply IH].
    destruct (smooth_junction_region region smoothing_iterations relaxation_factor)
      as [smoothed_region|e]; [|discriminate].
    cbn [mbind result_bind].
    destruct (row_at junction_points i) as [junction_point|e]; [|discriminate].
    cbn [mbind result_bind].
    destruct (recomputed_point_ids _ _ _) as [region_ids|e]; [|discriminate].
    cbn [mbind result_bind].
    destruct (_ && _).
    + destruct (assign_rows _ _ _) as [pts|e] eqn:Ea; [|discriminate].
      cbn [mbind result_bind mret result_ret]. intros Hloop Hsm.
      eapply IH; [exact Hloop|].
      apply only_points_differ_set_points; [exact Hsm|].
      eapply assign_rows_length; exact Ea.
    + cbn [mbind result_bind mret result_ret]. apply IH.
Qed.

Lemma overwrite_stage_frame (mesh : PolyData) (junction_points : list coord)
    (smoothing_radius_factor : float) (smoothing_iterations : nat)
    (relaxation_factor : float) (result_mesh : PolyData) :
  overwrite_stage mesh junction_points smoothing_radius_factor smoothing_iterations
    relaxation_factor = Ok result_mesh ->
  only_points_differ result_mesh mesh.
Proof.
  unfold overwrite_stage. cbv zeta.
  destruct (identify_junction_regions _ _ _) as [junction_regions|e]; [|discriminate].
  cbn [mbind result_bind]. intros H.
  eapply update_loop_frame; [exact H|]. repeat split.
Qed.

(** The write-back loop returns when the junction points all have a distant
    mesh point and each region has fewer than four points and no more points
    than the index set recomputed at its position. *)
Lemma update_loop_returns (mesh : PolyData) (junction_points : list coord)
    (smoothing_radius_factor : float) (smoothing_iterations : nat)
    (relaxation_factor : float) (junction_regions : list UnstructuredGrid) :
  (forall jp, jp ∈ junction_points -> has_distant_point mesh jp) ->
  forall (i : nat) (smoothed_mesh : PolyData),
    length (points smoothed_mesh) = length (points mesh) ->
    i + length junction_regions <= length junction_points ->
    (forall k region junction_point ids,
        junction_regions !! k = Some region ->
        junction_points !! (i + k) = Some junction_point ->
        region_point_ids (points mesh) junction_point smoothing_radius_factor
        = Ok ids ->
        grid_n_points region < 4 /\ grid_n_points region <= length ids) ->
    is_ok (update_loop mesh junction_points smoothing_radius_factor
             smoothing_iterations relaxation_factor junction_regions i
             smoothed_mesh) = true.
Proof.
  intros Hall.
  induction junction_regions as [|region rest IH]; intros i sm Hlen Hi Hfit;
    cbn [update_loop]; [reflexivity|].
  simpl in Hi.
  assert (Hrest : forall k region' junction_point ids,
            rest !! k = Some region' ->
            junction_points !! (S i + k) = Some junction_point ->
            region_point_ids (points mesh) junction_point smoothing_radius_factor
            = Ok ids ->
            grid_n_points region' < 4 /\ grid_n_points region' <= length ids).
  { intros k region' jp ids Hk Hjp Hids. apply (Hfit (S k) region' jp ids).
    - exact Hk.
    - now replace (i + S k) with (S i + k) by lia.
    - exact Hids. }
  destruct (0 <? grid_n_points region); [|apply IH; [exact Hlen|lia|exact Hrest]].
  destruct (lookup_lt_is_Some_2 junction_points i) as [jp Hjp]; [lia|].
  destruct (region_point_ids_returns (points mesh) jp smoothing_radius_factor)
    as (ids & Hids & Hnd & Hin).
  { apply Hall. apply list_elem_of_lookup. now exists i. }
  destruct (Hfit 0 region jp ids) as [Hsmall Hle];
    [reflexivity|now replace (i + 0) with i by lia|exact Hids|].
  unfold smooth_junction_region.
  replace (grid_n_points region <? 4) with true by (symmetry; now apply Nat.ltb_lt).
  cbn [mbind result_bind].
  unfold row_at. rewrite Hjp. cbn [mbind result_bind].
  rewrite recomputed_point_ids_agrees, Hids. cbn [mbind result_bind].
  destruct (_ && _); cbn [mbind result_bind mret result_ret];
    [|apply IH; [exact Hlen|lia|exact Hrest]].
  destruct (assign_rows_overwrites_prefix (points sm) ids (grid_points region))
    as (pts & Hassign & Hpts & _).
  - exact Hnd.
  - now rewrite Hlen.
  - exact Hle.
  - rewrite Hassign. cbn [mbind result_bind mret result_ret].
    apply IH; [simpl; congruence|lia|exact Hrest].
Qed.

Lemma overwrite_stage_returns (mesh : PolyData) (junction_points : list coord)
    (smoothing_radius_factor : float) (smoothing_iterations : nat)
    (relaxation_factor : float) :
  (forall jp, jp ∈ junction_points -> has_distant_point mesh jp) ->
  regions_fit mesh junction_points smoothing_radius_factor ->
  is_ok (overwrite_stage mesh junction_points smoothing_radius_factor
           smoothing_iterations relaxation_factor) = true.
Proof.
  intros Hall Hfit. unfold overwrite_stage. cbv zeta.
  destruct (regions_loop_returns mesh junction_points smoothing_radius_factor [] Hall)
    as (regions & Hregions & Hlen).
  fold (identify_junction_regions mesh junction_points smoothing_radius_factor)
    in Hregions.
  rewrite Hregions. cbn [mbind result_bind].
  apply update_loop_returns; [exact Hall|reflexivity|simpl in Hlen; lia|].
  intros k region jp ids Hk Hjp Hids.
  exact (Hfit regions Hregions k region jp ids Hk Hjp Hids).
Qed.

End BasicFacts.

(** C1, amended: with at least one junction detected, the outcome of
    [apply_junction_smoothing] is the outcome of the overwrite stage passed
    through normal recomputation and the repair primitive.  The mesh the
    overwrite stage produces has the faces, the number of points and the
    attributes of the input mesh, only point coordinates differ; so the
    returned mesh has the input's faces whenever normal recomputation and
    repair keep the faces of the mesh they are given.  A mesh is returned
    when every junction point has a mesh point at a positive distance, every
    region has fewer than four points and no more points than the index set
    selected at its position, and the repair primitive returns. *)
Theorem apply_junction_smoothing_keeps_topology_up_to_repair {ext : Collaborators}
    {TreeMap Connectivity : Type} (mesh : PolyData) (tree_data : TreeData)
    (vessel_map : TreeMap) (connectivity : Connectivity)
    (smoothing_radius_factor : float) (smoothing_iterations : nat)
    (relaxation_factor : float) :
  let junction_points :=
    snd (Detector.detect_junctions tree_data vessel_map connectivity
           Detector.default_tolerance) in
  let outcome :=
    snd (Basic.apply_junction_smoothing mesh tree_data vessel_map connectivity
           smoothing_radius_factor smoothing_iterations relaxation_factor) in
  junction_points <> [] ->
  match Basic.overwrite_stage mesh junction_points smoothing_radius_factor
          smoothing_iterations relaxation_factor with
  | Ok smoothed_mesh =>
      only_points_differ smoothed_mesh mesh /\
      outcome = meshfix_repair (compute_normals smoothed_mesh true)
  | Raise e => outcome = Raise e
  end
  /\ ((forall m b, cells (compute_normals m b) = cells m) ->
      (forall m repaired, meshfix_repair m = Ok repaired -> cells repaired = cells m) ->
      forall returned, outcome = Ok returned -> cells returned = cells mesh)
  /\ ((forall jp, jp ∈ junction_points -> has_distant_point mesh jp) ->
      regions_fit mesh junction_points smoothing_radius_factor ->
      (forall m, is_ok (meshfix_repair m) = true) ->
      is_ok outcome = true).
Proof.
  intros junction_points outcome Hj.
  assert (Hout : outcome
                 = (smoothed_mesh ← Basic.overwrite_stage mesh junction_points
                                      smoothing_radius_factor smoothing_iterations
                                      relaxation_factor;
                    meshfix_repair (compute_normals smoothed_mesh true))).
  { subst outcome junction_points. unfold Basic.apply_junction_smoothing.
    destruct (Detector.detect_junctions tree_data vessel_map connectivity
                Detector.default_tolerance) as [junctions points].
    simpl in Hj |- *. destruct points; [contradiction|]. reflexivity. }
  pose proof (overwrite_stage_returns mesh junction_points smoothing_radius_factor
                smoothing_iterations relaxation_factor) as Hreturns.
  destruct (Basic.overwrite_stage mesh junction_points smoothing_radius_factor
              smoothing_iterations relaxation_factor) as [smoothed_mesh|e] eqn:Es;
    cbn [mbind result_bind] in Hout.
  - pose proof (overwrite_stage_frame _ _ _ _ _ _ Es) as Hframe.
    split; [split; [exact Hframe|exact Hout]|]. split.
    + intros Hnormals Hrepair returned Hret. rewrite Hout in Hret.
      rewrite (Hrepair _ _ Hret), Hnormals. exact (proj1 Hframe).
    + intros _ _ Hrepair. rewrite Hout. apply Hrepair.
  - split; [exact Hout|]. split.
    + intros _ _ returned Hret. congruence.
    + intros Hall Hfit _. specialize (Hreturns Hall Hfit). discriminate Hreturns.
Qed.

Lemma apply_junction_smoothing_keeps_topology_witness :
  snd (Detector.detect_junctions Examples.two_vessels tt tt Detector.default_tolerance)
  <> []
  /\ is_ok (snd (@Basic.apply_junction_smoothing Examples.adjacent_tube _ _
                   Examples.triangle_and_tetrahedron Examples.two_vessels tt tt
                   2%float 5 0x1.999999999999ap-4%float)) = true
  /\ exists returned,
       snd (@Basic.apply_junction_smoothing Examples.adjacent_tube _ _
              Examples.triangle_and_tetrahedron Examples.two_vessels tt tt
              2%float 5 0x1.999999999999ap-4%float) = Ok returned
       /\ cells returned = cells Examples.triangle_and_tetrahedron.
Proof.
  assert (Hj : snd (Detector.detect_junctions Examples.two_vessels tt tt
                      Detector.default_tolerance) <> []).
  { vm_compute. discriminate. }
  pose proof (@apply_junction_smoothing_keeps_topology_up_to_repair
                Examples.adjacent_tube _ _ Examples.triangle_and_tetrahedron
                Examples.two_vessels tt tt 2%float 5 0x1.999999999999ap-4%float Hj)
    as (_ & Hcells & Hreturns).
  split; [exact Hj|]. split.
  - apply Hreturns.
    + intros jp Hjp. vm_compute in Hjp. apply list_elem_of_singleton in Hjp.
      subst jp. vm_compute. discriminate.
    + intros regions Hregions k region jp ids Hk Hjp Hids.
      vm_compute in Hregions. injection Hregions as <-.
      destruct k as [|k]; [|discriminate Hk].
      injection Hk as <-. vm_compute in Hjp. injection Hjp as <-.
      vm_compute in Hids. injection Hids as <-. vm_compute. lia.
    + intros m. reflexivity.
  - eexists. split; [vm_compute; reflexivity|].
    apply Hcells.
    + reflexivity.
    + intros m repaired H. injection H as <-. reflexivity.
    + vm_compute. reflexivity.
Defined.

(** C1 as stated fails.  The repair step is there to change the mesh: with
    the component filter MeshFix applies by default, a triangle at the
    junction next to a closed tetrahedron comes back as the tetrahedron
    alone, four faces for an input of five.  And the repair step is not
    always reached: where the extracted region has four points, the call
    raises instead of returning a mesh. *)
Lemma apply_junction_smoothing_changes_topology :
  snd (Detector.detect_junctions Examples.two_vessels tt tt Detector.default_tolerance)
  <> []
  /\ (exists returned,
        snd (@Basic.apply_junction_smoothing Examples.filtering_tube _ _
               Examples.triangle_and_tetrahedron Examples.two_vessels tt tt
               2%float 5 0x1.999999999999ap-4%float) = Ok returned
        /\ length (cells returned) = 4
        /\ length (cells Examples.triangle_and_tetrahedron) = 5
        /\ cells returned <> cells Examples.triangle_and_tetrahedron)
  /\ snd (@Basic.apply_junction_smoothing Examples.adjacent_tube _ _
            Examples.diamond Examples.two_vessels tt tt 2%float 5
            0x1.999999999999ap-4%float)
     = Raise (AttributeError
         "'UnstructuredGrid' object has no attribute 'smooth_taubin'").
Proof.
  split; [vm_compute; discriminate|]. split; [|vm_compute; reflexivity].
  eexists. split; [vm_compute; reflexivity|].
  repeat split. vm_compute. discriminate.
Qed.

(** C2, at a region larger than the index set: the triangle has one
    vertex within the radius of the junction, so the recomputed index set is
    [[0]]; the region extracted with the faces touching it has three points
    and comes back from smoothing as it is; the assignment of three rows to
    one index raises, and so does [apply_junction_smoothing]. *)
Theorem apply_junction_smoothing_larger_region_raises :
  Region.recomputed_point_ids (points Examples.triangle) Examples.origin 2%float
  = Ok [0]
  /\ Basic.smooth_junction_region (Examples.extract_adjacent Examples.triangle [0]) 5
       0x1.999999999999ap-4%float
     = Ok (Examples.extract_adjacent Examples.triangle [0])
  /\ grid_n_points (Examples.extract_adjacent Examples.triangle [0]) = 3
  /\ Basic.assign_rows (points Examples.triangle) (take 3 [0])
       (grid_points (Examples.extract_adjacent Examples.triangle [0]))
     = Raise (ValueError
         "shape mismatch: value array could not be broadcast to indexing result")
  /\ snd (@Basic.apply_junction_smoothing Examples.adjacent_tube _ _
            Examples.triangle Examples.two_vessels tt tt 2%float 5
            0x1.999999999999ap-4%float)
     = Raise (ValueError
         "shape mismatch: value array could not be broadcast to indexing result").
Proof. repeat split; vm_compute; reflexivity. Qed.

(** C3, at a mesh whose points all coincide with the junction coordinate:
    [identify_junction_regions] raises the error of [np.min] on an empty
    array, for any collaborators and any radius factor; a junction that
    follows is not processed; an empty mesh raises the same way.  An empty
    selection that leaves the minimum defined is skipped: with factor 0.5 the
    junction at the origin selects no vertex of the triangle and only the
    second junction yields a region. *)
Theorem identify_junction_regions_coincident_points_raise
    {ext : Collaborators} (radius_factor : float) :
  Basic.identify_junction_regions Examples.single_point [Examples.origin] radius_factor
  = Raise (ValueError
      "zero-size array to reduction operation minimum which has no identity")
  /\ Basic.identify_junction_regions Examples.single_point
       [Examples.origin; (1, 0, 0)%float] radius_factor
     = Raise (ValueError
         "zero-size array to reduction operation minimum which has no identity")
  /\ Basic.identify_junction_regions (Examples.bare [] []) [Examples.origin]
       radius_factor
     = Raise (ValueError
         "zero-size array to reduction operation minimum which has no identity")
  /\ Basic.identify_junction_regions Examples.triangle
       [Examples.origin; (1, 0, 0)%float] 0.5%float
     = Ok [extract_points Examples.triangle [0]].
Proof. repeat split; reflexivity. Qed.

(** * Further properties *)

(** ** Junction ids, order and number *)

Section DetectorOrder.

Import Detector.

Lemma append_vessel_key_list d k i :
  map fst (append_vessel d k i) = map fst d
  \/ map fst (append_vessel d k i) = map fst d ++ [k].
Proof.
  induction d as [|[k' l'] d IH]; simpl; [now right|].
  destruct (coord_eqb k' k); simpl; [now left|].
  destruct IH as [-> | ->]; [now left|now right].
Qed.

Lemma scan_endpoints_key_list vs : forall i d,
  exists sub, sub `sublist_of` endpoints vs /\
              map fst (scan_endpoints vs i d) = map fst d ++ sub.
Proof.
  induction vs as [|v vs IH]; intros i d; simpl.
  - exists []. split; [constructor|now rewrite app_nil_r].
  - destruct (IH (S i) (append_vessel (append_vessel d (proximal v) i) (distal v) i))
      as (sub & Hsub & ->).
    assert (Hkeys : exists s1 s2,
               s1 `sublist_of` [proximal v] /\ s2 `sublist_of` [distal v] /\
               map fst (append_vessel (append_vessel d (proximal v) i) (distal v) i)
               = map fst d ++ s1 ++ s2).
    { destruct (append_vessel_key_list (append_vessel d (proximal v) i) (distal v) i)
        as [-> | ->];
        destruct (append_vessel_key_list d (proximal v) i) as [-> | ->].
      - exists [], []. split; [|split];
          [apply sublist_nil_l|apply sublist_nil_l|now rewrite app_nil_r].
      - exists [proximal v], []. split; [|split];
          [reflexivity|apply sublist_nil_l|now rewrite app_nil_r].
      - exists [], [distal v]. split; [|split];
          [apply sublist_nil_l|reflexivity|reflexivity].
      - exists [proximal v], [distal v]. split; [|split];
          [reflexivity|reflexivity|now rewrite <- app_assoc]. }
    destruct Hkeys as (s1 & s2 & H1 & H2 & ->).
    exists (s1 ++ s2 ++ sub). split.
    + change (proximal v :: distal v :: endpoints vs)
        with ([proximal v] ++ [distal v] ++ endpoints vs).
      now repeat apply sublist_app.
    + now rewrite <- !app_assoc.
Qed.

Lemma collect_junctions_coord_list items : forall junction_id junctions junction_coords,
  exists sub, sub `sublist_of` map fst items /\
    snd (collect_junctions items junction_id junctions junction_coords)
    = junction_coords ++ sub.
Proof.
  induction items as [|[c l] items IH]; intros jid js cs; simpl.
  - exists []. split; [constructor|now rewrite app_nil_r].
  - destruct (1 <? length l).
    + destruct (IH (S jid) (js ++ [(jid, l)]) (cs ++ [c])) as (sub & Hsub & ->).
      exists (c :: sub). split; [now apply sublist_skip|now rewrite <- app_assoc].
    + destruct (IH jid js cs) as (sub & Hsub & ->).
      exists sub. split; [now apply sublist_cons|reflexivity].
Qed.

Lemma junction_coords_among_keys {TreeMap Connectivity : Type} (tree_data : TreeData)
    (vessel_map : TreeMap) (connectivity : Connectivity) (tolerance : float) :
  snd (detect_junctions tree_data vessel_map connectivity tolerance)
  `sublist_of` map fst (point_to_vessels tree_data).
Proof.
  unfold detect_junctions.
  destruct (collect_junctions_coord_list (point_to_vessels tree_data) 0 [] [])
    as (sub & Hsub & ->). exact Hsub.
Qed.

Lemma Forall_of_sublist {A : Type} (P : A -> Prop) (l1 l2 : list A) :
  l1 `sublist_of` l2 -> Forall P l2 -> Forall P l1.
Proof.
  induction 1 as [|x l1 l2 _ IH|x l1 l2 _ IH]; intros H.
  - constructor.
  - apply Forall_cons in H as [Hx H]. constructor; [exact Hx|now apply IH].
  - apply Forall_cons in H as [_ H]. now apply IH.
Qed.

Lemma apart_sublist (l1 l2 : list coord) : l1 `sublist_of` l2 -> apart l2 -> apart l1.
Proof.
  induction 1 as [|x l1 l2 Hsub IH|x l1 l2 Hsub IH]; simpl.
  - auto.
  - intros [Hx H]. split; [eapply Forall_of_sublist; eassumption|now apply IH].
  - intros [_ H]. now apply IH.
Qed.

Lemma keys_apart_as_apart (d : list (coord * list nat)) :
  keys_apart d -> apart (map fst d).
Proof.
  induction d as [|e d IH]; simpl; [auto|]. intros [Hhead Htail].
  split; [|now apply IH]. apply Forall_fmap.
  eapply Forall_impl; [exact Hhead|]. auto.
Qed.

Lemma apart_lookup (l : list coord) : forall a b x y,
  apart l -> a < b -> l !! a = Some x -> l !! b = Some y -> coord_eqb x y = false.
Proof.
  induction l as [|k l IH]; intros a b x y Hl Hab Ha Hb.
  - now rewrite lookup_nil in Ha.
  - destruct Hl as [Hk Hl]. destruct b as [|b]; [lia|]. simpl in Hb.
    destruct a as [|a]; simpl in Ha.
    + injection Ha as ->. rewrite Forall_forall in Hk. apply Hk.
      apply list_elem_of_lookup. now exists b.
    + apply (IH a b); [exact Hl|lia|exact Ha|exact Hb].
Qed.

Lemma append_vessel_total d k i : total_entries (append_vessel d k i) = S (total_entries d).
Proof.
  unfold total_entries. induction d as [|[k' l'] d IH]; simpl; [reflexivity|].
  destruct (coord_eqb k' k); simpl.
  - rewrite length_app. simpl. lia.
  - rewrite IH. lia.
Qed.

Lemma scan_endpoints_total vs : forall i d,
  total_entries (scan_endpoints vs i d) = total_entries d + 2 * length vs.
Proof.
  induction vs as [|v vs IH]; intros i d; simpl; [lia|].
  rewrite IH, !append_vessel_total. lia.
Qed.

Lemma sum_list_append (l1 l2 : list nat) :
  sum_list (l1 ++ l2) = sum_list l1 + sum_list l2.
Proof. induction l1 as [|x l1 IH]; simpl; [reflexivity|]. rewrite IH. lia. Qed.

Lemma collect_junctions_degree_sum items : forall junction_id junctions junction_coords,
  sum_list (degrees (fst (collect_junctions items junction_id junctions junction_coords)))
  <= sum_list (degrees junctions) + total_entries items.
Proof.
  unfold total_entries, degrees.
  induction items as [|[c l] items IH]; intros jid js cs; simpl; [lia|].
  destruct (1 <? length l).
  - etransitivity; [apply IH|]. rewrite map_app, sum_list_append. simpl. lia.
  - etransitivity; [apply IH|]. lia.
Qed.

Lemma degree_sum_lower_bound (junctions : list (nat * list nat)) :
  (forall k j l, junctions !! k = Some (j, l) -> 2 <= length l) ->
  2 * length junctions <= sum_list (degrees junctions).
Proof.
  unfold degrees. induction junctions as [|[j l] js IH]; intros H; simpl; [lia|].
  pose proof (H 0 j l eq_refl).
  assert (2 * length js <= sum_list (map (fun entry => length (snd entry)) js)).
  { apply IH. intros k j' l' Hk. apply (H (S k) j' l'). exact Hk. }
  lia.
Qed.

Lemma occurrences_snoc (k q : coord) (l : list coord) :
  occurrences k (l ++ [q]) = occurrences k l + (if coord_eqb k q then 1 else 0).
Proof.
  unfold occurrences. rewrite List.filter_app, length_app. simpl.
  now destruct (coord_eqb k q).
Qed.

Lemma occurrences_none (k : coord) (l : list coord) :
  (forall e, e ∈ l -> coord_eqb k e = false) -> occurrences k l = 0.
Proof.
  unfold occurrences. induction l as [|x l IH]; intros H; simpl; [reflexivity|].
  rewrite (H x) by left. apply IH. intros e He. apply H. now right.
Qed.

Lemma coord_eqb_refl_of (a b : coord) : coord_eqb a b = true -> coord_eqb a a = true.
Proof. intros H. eapply coord_eqb_trans; [exact H|now apply coord_eqb_sym]. Qed.

Lemma first_seen_covers (l : list coord) (e : coord) :
  e ∈ l -> coord_eqb e e = true -> exists k, k ∈ first_seen l /\ coord_eqb k e = true.
Proof.
  induction l as [|x l IH]; intros He Hrefl.
  - now apply elem_of_nil in He.
  - simpl. apply elem_of_cons in He as [->|He].
    + exists x. split; [left|exact Hrefl].
    + destruct (IH He Hrefl) as (k & Hk & Hke).
      destruct (coord_eqb x k) eqn:E.
      * exists x. split; [left|]. eapply coord_eqb_trans; eassumption.
      * exists k. split; [|exact Hke]. right.
        apply list_elem_of_In, filter_In. split; [now apply list_elem_of_In|].
        now rewrite E.
Qed.

Lemma existsb_filter_apart (k q : coord) (l : list coord) :
  coord_eqb k q = false ->
  existsb (fun e => coord_eqb e q) (List.filter (fun e => negb (coord_eqb k e)) l)
  = existsb (fun e => coord_eqb e q) l.
Proof.
  intros Hkq. induction l as [|x l IH]; simpl; [reflexivity|].
  destruct (coord_eqb k x) eqn:Ekx; simpl.
  - rewrite IH. destruct (coord_eqb x q) eqn:Exq; [|reflexivity].
    rewrite (coord_eqb_trans _ _ _ Ekx Exq) in Hkq. discriminate Hkq.
  - now rewrite IH.
Qed.

(** One more entry at the end: it is kept when no entry kept so far equals
    it. *)
Lemma first_seen_snoc (l : list coord) (q : coord) :
  first_seen (l ++ [q])
  = if existsb (fun k => coord_eqb k q) (first_seen l) then first_seen l
    else first_seen l ++ [q].
Proof.
  induction l as [|k l IH]; [reflexivity|].
  cbn [app first_seen existsb]. rewrite IH.
  destruct (coord_eqb k q) eqn:Ekq; cbn [orb].
  - destruct (existsb _ (first_seen l)); [reflexivity|].
    rewrite List.filter_app. simpl. rewrite Ekq. simpl. now rewrite app_nil_r.
  - rewrite (existsb_filter_apart k q _ Ekq).
    destruct (existsb _ (first_seen l)); [reflexivity|].
    rewrite List.filter_app. simpl. now rewrite Ekq.
Qed.

Lemma append_vessel_key_step d k i :
  map fst (append_vessel d k i)
  = if existsb (fun k' => coord_eqb k' k) (map fst d) then map fst d
    else map fst d ++ [k].
Proof.
  induction d as [|[k' l'] d IH]; simpl; [reflexivity|].
  destruct (coord_eqb k' k); simpl; [reflexivity|].
  rewrite IH. now destruct (existsb _ (map fst d)).
Qed.

Lemma tallied_apart_entries (d : list (coord * list nat)) (seen : list coord)
    (q : coord) :
  Forall (fun entry => coord_eqb (fst entry) q = false) d ->
  tallied d seen -> tallied d (seen ++ [q]).
Proof.
  unfold tallied. intros Hq Ht. rewrite Forall_forall in Hq, Ht |- *.
  intros entry Hin. rewrite occurrences_snoc, (Hq _ Hin), (Ht _ Hin). lia.
Qed.

Lemma append_vessel_tallied d : forall k i seen,
  keys_apart d ->
  (Forall (fun entry => coord_eqb (fst entry) k = false) d -> occurrences k seen = 0) ->
  tallied d seen -> tallied (append_vessel d k i) (seen ++ [k]).
Proof.
  induction d as [|[k' l'] d IH]; intros k i seen Hapart Hnew Ht; simpl.
  - constructor; [|constructor]. simpl.
    rewrite occurrences_snoc, (Hnew (Forall_nil_2 _)).
    now destruct (coord_eqb k k).
  - destruct Hapart as [Hhead Hapart].
    apply Forall_cons in Ht as [Hk' Ht]. simpl in Hk'.
    destruct (coord_eqb k' k) eqn:E.
    + constructor.
      * simpl. rewrite length_app, occurrences_snoc, E, Hk'. simpl.
        rewrite (coord_eqb_refl_of _ _ E). lia.
      * apply tallied_apart_entries; [|exact Ht].
        eapply Forall_impl; [exact Hhead|]. intros entry Hne. simpl in Hne.
        destruct (coord_eqb (fst entry) k) eqn:Ee; [|reflexivity].
        rewrite (coord_eqb_trans _ _ _ E (coord_eqb_sym _ _ Ee)) in Hne.
        discriminate Hne.
    + constructor.
      * simpl. rewrite occurrences_snoc, E, Hk'. lia.
      * apply IH; [exact Hapart| |exact Ht].
        intros Hall. apply Hnew. constructor; [exact E|exact Hall].
Qed.

Lemma unseen_key_has_no_equal (d : list (coord * list nat)) (seen : list coord)
    (k : coord) :
  map fst d = first_seen seen ->
  Forall (fun entry => coord_eqb (fst entry) k = false) d ->
  occurrences k seen = 0.
Proof.
  intros Hkeys Hall. apply occurrences_none. intros e He.
  destruct (coord_eqb k e) eqn:Eke; [|reflexivity].
  apply coord_eqb_sym in Eke.
  destruct (first_seen_covers seen e He (coord_eqb_refl_of _ _ Eke))
    as (key & Hkey & Hke).
  rewrite <- Hkeys in Hkey. apply list_elem_of_fmap in Hkey as (entry & -> & Hentry).
  rewrite Forall_forall in Hall. specialize (Hall _ Hentry).
  rewrite (coord_eqb_trans _ _ _ Hke Eke) in Hall. discriminate Hall.
Qed.

Lemma append_vessel_first_seen d k i seen :
  keys_apart d -> map fst d = first_seen seen -> tallied d seen ->
  map fst (append_vessel d k i) = first_seen (seen ++ [k])
  /\ tallied (append_vessel d k i) (seen ++ [k]).
Proof.
  intros Hapart Hkeys Ht. split.
  - now rewrite append_vessel_key_step, first_seen_snoc, Hkeys.
  - apply append_vessel_tallied; [exact Hapart| |exact Ht].
    now apply unseen_key_has_no_equal.
Qed.

Lemma scan_endpoints_first_seen vs : forall i d seen,
  keys_apart d -> map fst d = first_seen seen -> tallied d seen ->
  map fst (scan_endpoints vs i d) = first_seen (seen ++ endpoints vs)
  /\ tallied (scan_endpoints vs i d) (seen ++ endpoints vs).
Proof.
  induction vs as [|v vs IH]; intros i d seen Hapart Hkeys Ht.
  - simpl. rewrite app_nil_r. now split.
  - cbn [scan_endpoints]. cbv zeta.
    destruct (append_vessel_first_seen d (proximal v) i seen Hapart Hkeys Ht)
      as [Hkeys1 Ht1].
    destruct (append_vessel_first_seen _ (distal v) i _
                (append_vessel_keys_apart _ (proximal v) i Hapart) Hkeys1 Ht1)
      as [Hkeys2 Ht2].
    replace (seen ++ endpoints (v :: vs))
      with (((seen ++ [proximal v]) ++ [distal v]) ++ endpoints vs)
      by (now rewrite <- !app_assoc).
    apply IH; [|exact Hkeys2|exact Ht2].
    now do 2 apply append_vessel_keys_apart.
Qed.

Lemma collect_junctions_coords items : forall junction_id junctions junction_coords,
  snd (collect_junctions items junction_id junctions junction_coords)
  = junction_coords
    ++ map fst (List.filter (fun entry => 1 <? length (snd entry)) items).
Proof.
  induction items as [|[c l] items IH]; intros jid js cs; simpl.
  - now rewrite app_nil_r.
  - destruct (1 <? length l); simpl; rewrite IH; [now rewrite <- app_assoc|reflexivity].
Qed.

Lemma tallied_junction_keys (d : list (coord * list nat)) (seen : list coord) :
  tallied d seen ->
  map fst (List.filter (fun entry => 1 <? length (snd entry)) d)
  = List.filter (fun k => 1 <? occurrences k seen) (map fst d).
Proof.
  unfold tallied. induction 1 as [|[k l] d Hk _ IH]; simpl; [reflexivity|].
  simpl in Hk. rewrite Hk.
  assert (Hsame : (1 <? occurrences k seen + (if coord_eqb k k then 0 else 1))
                  = (1 <? occurrences k seen)).
  { destruct (coord_eqb k k) eqn:E; [now rewrite Nat.add_0_r|].
    rewrite occurrences_none; [reflexivity|].
    intros e _. destruct (coord_eqb k e) eqn:Ee; [|reflexivity].
    rewrite (coord_eqb_refl_of _ _ Ee) in E. discriminate E. }
  rewrite Hsame. destruct (1 <? occurrences k seen); simpl; now rewrite IH.
Qed.

End DetectorOrder.

(** X1: the junction ids are the positions 0, 1, ... of the junction map, and
    the coordinate array has one row per junction: id [k] is row [k]. *)
Theorem detect_junctions_ids_are_positions {TreeMap Connectivity : Type}
    (tree_data : TreeData) (vessel_map : TreeMap) (connectivity : Connectivity)
    (tolerance : float) :
  map fst (fst (Detector.detect_junctions tree_data vessel_map connectivity tolerance))
  = seq 0 (length (snd (Detector.detect_junctions tree_data vessel_map connectivity
                          tolerance)))
  /\ length (fst (Detector.detect_junctions tree_data vessel_map connectivity tolerance))
     = length (snd (Detector.detect_junctions tree_data vessel_map connectivity
                      tolerance)).
Proof.
  destruct (detect_junctions_aligned tree_data vessel_map connectivity tolerance)
    as [Hlen Hal].
  split; [|exact Hlen]. rewrite <- Hlen. apply list_eq. intros k.
  rewrite list_lookup_fmap.
  destruct (fst (Detector.detect_junctions _ _ _ _) !! k) as [[j l]|] eqn:E; simpl.
  - destruct (Hal _ _ _ E) as [-> _]. symmetry. apply lookup_seq.
    split; [reflexivity|]. now apply lookup_lt_Some in E.
  - symmetry. apply lookup_seq_ge. now apply lookup_ge_None in E.
Qed.

(** X3: no junction is reported twice: two rows of the junction coordinate
    array are never equal under [==]. *)
Theorem detect_junctions_coordinates_are_distinct {TreeMap Connectivity : Type}
    (tree_data : TreeData) (vessel_map : TreeMap) (connectivity : Connectivity)
    (tolerance : float) (a b : nat) (ca cb : coord) :
  a < b ->
  snd (Detector.detect_junctions tree_data vessel_map connectivity tolerance) !! a
  = Some ca ->
  snd (Detector.detect_junctions tree_data vessel_map connectivity tolerance) !! b
  = Some cb ->
  coord_eqb ca cb = false.
Proof.
  apply apart_lookup.
  eapply apart_sublist; [apply junction_coords_among_keys|].
  apply keys_apart_as_apart. apply scan_endpoints_keys_apart. exact I.
Qed.

Lemma detect_junctions_coordinates_are_distinct_witness :
  snd (Detector.detect_junctions Examples.five_vessels tt tt Detector.default_tolerance)
    !! 0 = Some Examples.origin
  /\ snd (Detector.detect_junctions Examples.five_vessels tt tt
            Detector.default_tolerance) !! 1 = Some (3, 4, 0)%float
  /\ coord_eqb Examples.origin (3, 4, 0)%float = false.
Proof.
  split; [reflexivity|]. split; [reflexivity|].
  apply (detect_junctions_coordinates_are_distinct Examples.five_vessels tt tt
           Detector.default_tolerance 0 1); [lia|reflexivity|reflexivity].
Defined.

(** X4: the junction coordinates are the endpoint coordinates that occur at
    least twice among the endpoints, each listed once, where it is first
    seen: in the order of first occurrence, proximal before distal, vessel
    after vessel. *)
Theorem detect_junctions_keeps_endpoint_order {TreeMap Connectivity : Type}
    (tree_data : TreeData) (vessel_map : TreeMap) (connectivity : Connectivity)
    (tolerance : float) :
  snd (Detector.detect_junctions tree_data vessel_map connectivity tolerance)
  = List.filter (fun k => 1 <? occurrences k (endpoints tree_data))
      (first_seen (endpoints tree_data)).
Proof.
  unfold Detector.detect_junctions, Detector.point_to_vessels.
  rewrite collect_junctions_coords. simpl.
  destruct (scan_endpoints_first_seen tree_data 0 [] [] I eq_refl (Forall_nil_2 _))
    as [Hkeys Ht].
  simpl in Hkeys, Ht. now rewrite (tallied_junction_keys _ _ Ht), Hkeys.
Qed.

(** X5: the degrees of the junctions add up to at most twice the number of
    vessels, and there are at most as many junctions as vessels. *)
Theorem detect_junctions_count_bounds {TreeMap Connectivity : Type}
    (tree_data : TreeData) (vessel_map : TreeMap) (connectivity : Connectivity)
    (tolerance : float) :
  sum_list (degrees (fst (Detector.detect_junctions tree_data vessel_map connectivity
                            tolerance)))
  <= 2 * length tree_data
  /\ length (fst (Detector.detect_junctions tree_data vessel_map connectivity tolerance))
     <= length tree_data.
Proof.
  assert (Hsum : sum_list (degrees (fst (Detector.detect_junctions tree_data vessel_map
                                           connectivity tolerance)))
                 <= 2 * length tree_data).
  { unfold Detector.detect_junctions.
    etransitivity; [apply collect_junctions_degree_sum|].
    unfold Detector.point_to_vessels. rewrite scan_endpoints_total. simpl. lia. }
  split; [exact Hsum|].
  pose proof (degree_sum_lower_bound
                (fst (Detector.detect_junctions tree_data vessel_map connectivity
                        tolerance))) as Hlow.
  destruct (detect_junctions_aligned tree_data vessel_map connectivity tolerance)
    as [_ Hal].
  assert (2 * length (fst (Detector.detect_junctions tree_data vessel_map connectivity
                             tolerance))
          <= sum_list (degrees (fst (Detector.detect_junctions tree_data vessel_map
                                       connectivity tolerance)))).
  { apply Hlow. intros k j l Hk. destruct (Hal _ _ _ Hk) as (_ & c & _ & _ & Hdeg).
    exact Hdeg. }
  lia.
Qed.

(** ** Trees without junction *)

Section NoJunction.

Import Detector.

Lemma append_vessel_new d k i :
  Forall (fun entry => coord_eqb (fst entry) k = false) d ->
  append_vessel d k i = d ++ [(k, [i])].
Proof.
  induction d as [|[k' l'] d IH]; simpl; intros H; [reflexivity|].
  apply Forall_cons in H as [Hk H]. simpl in Hk. rewrite Hk. now rewrite IH.
Qed.

Lemma apart_before (l1 : list coord) k l2 :
  apart (l1 ++ k :: l2) -> Forall (fun x => coord_eqb x k = false) l1.
Proof.
  induction l1 as [|x l1 IH]; simpl; intros H; [constructor|].
  destruct H as [Hx H]. constructor; [|now apply IH].
  rewrite Forall_forall in Hx. apply Hx. apply elem_of_app. right. left.
Qed.

Lemma keys_before (d : list (coord * list nat)) k l2 :
  apart (map fst d ++ k :: l2) ->
  Forall (fun entry => coord_eqb (fst entry) k = false) d.
Proof.
  intros H. apply apart_before in H.
  exact (proj1 (Forall_fmap fst (fun x => coord_eqb x k = false) d) H).
Qed.

Lemma scan_endpoints_singletons vs : forall i d,
  apart (map fst d ++ endpoints vs) ->
  Forall (fun entry => length (snd entry) = 1) d ->
  Forall (fun entry => length (snd entry) = 1) (scan_endpoints vs i d).
Proof.
  induction vs as [|v vs IH]; intros i d Hapart Hd; simpl; [exact Hd|].
  simpl in Hapart.
  assert (H1 : append_vessel d (proximal v) i = d ++ [(proximal v, [i])]).
  { apply append_vessel_new. eapply keys_before. exact Hapart. }
  rewrite H1.
  assert (Hapart' : apart (map fst (d ++ [(proximal v, [i])])
                           ++ distal v :: endpoints vs)).
  { rewrite map_app. simpl. now rewrite <- app_assoc. }
  assert (H2 : append_vessel (d ++ [(proximal v, [i])]) (distal v) i
               = (d ++ [(proximal v, [i])]) ++ [(distal v, [i])]).
  { apply append_vessel_new. eapply keys_before. exact Hapart'. }
  rewrite H2. apply IH.
  - rewrite map_app. simpl. now rewrite <- app_assoc.
  - repeat (apply Forall_app; split); try exact Hd; repeat constructor.
Qed.

Lemma collect_junctions_singletons items : forall junction_id junctions junction_coords,
  Forall (fun entry => length (snd entry) <= 1) items ->
  collect_junctions items junction_id junctions junction_coords
  = (junctions, junction_coords).
Proof.
  induction items as [|[c l] items IH]; intros jid js cs H; simpl; [reflexivity|].
  apply Forall_cons in H as [Hl H]. simpl in Hl.
  replace (1 <? length l) with false by (symmetry; apply Nat.ltb_ge; lia).
  now apply IH.
Qed.

Lemma append_vessel_nonempty d k i :
  Forall (fun entry => 1 <= length (snd entry)) d ->
  Forall (fun entry => 1 <= length (snd entry)) (append_vessel d k i).
Proof.
  induction d as [|[k' l'] d IH]; simpl; intros H; [repeat constructor|].
  apply Forall_cons in H as [Hl H]. destruct (coord_eqb k' k).
  - constructor; [|exact H]. simpl. rewrite length_app. simpl. lia.
  - constructor; [exact Hl|now apply IH].
Qed.

Lemma scan_endpoints_nonempty vs : forall i d,
  Forall (fun entry => 1 <= length (snd entry)) d ->
  Forall (fun entry => 1 <= length (snd entry)) (scan_endpoints vs i d).
Proof.
  induction vs as [|v vs IH]; intros i d H; simpl; [exact H|].
  apply IH. now do 2 apply append_vessel_nonempty.
Qed.

Lemma sublist_full {A : Type} (l1 l2 : list A) :
  l1 `sublist_of` l2 -> length l2 <= length l1 -> l1 = l2.
Proof.
  induction 1 as [|x l1 l2 Hsub IH|x l1 l2 Hsub IH]; simpl; intros Hlen.
  - reflexivity.
  - f_equal. apply IH. lia.
  - apply sublist_length in Hsub. lia.
Qed.

Lemma endpoints_length (tree_data : TreeData) :
  length (endpoints tree_data) = 2 * length tree_data.
Proof.
  unfold endpoints. induction tree_data as [|v vs IH]; simpl; [reflexivity|].
  rewrite IH. lia.
Qed.

End NoJunction.

(** X2: the detector reports no junction exactly when no endpoint equals,
    under [==], an endpoint inserted after it. *)
Theorem detect_junctions_empty_iff_endpoints_apart {TreeMap Connectivity : Type}
    (tree_data : TreeData) (vessel_map : TreeMap) (connectivity : Connectivity)
    (tolerance : float) :
  Detector.detect_junctions tree_data vessel_map connectivity tolerance = ([], [])
  <-> apart (endpoints tree_data).
Proof.
  unfold Detector.detect_junctions. split.
  - intros Hnone.
    set (d := Detector.point_to_vessels tree_data) in *.
    assert (Hone : Forall (fun entry => length (snd entry) = 1) d).
    { pose proof (scan_endpoints_nonempty tree_data 0 [] (Forall_nil_2 _)) as Hpos.
      fold (Detector.point_to_vessels tree_data) in Hpos. fold d in Hpos.
      rewrite Forall_forall in Hpos |- *. intros [c l] Hin.
      specialize (Hpos _ Hin). simpl in *.
      destruct (le_lt_dec 2 (length l)) as [Hbig|Hsmall]; [|lia].
      destruct (collect_junctions_complete d 0 [] []) as [_ Hnew].
      destruct (Hnew c l Hin Hbig) as [jid Hjid].
      rewrite Hnone in Hjid. now apply elem_of_nil in Hjid. }
    assert (Hkeys : map fst d = endpoints tree_data).
    { destruct (scan_endpoints_key_list tree_data 0 []) as (sub & Hsub & Hk).
      fold (Detector.point_to_vessels tree_data) in Hk. fold d in Hk. simpl in Hk.
      rewrite Hk. apply sublist_full; [exact Hsub|].
      rewrite endpoints_length, <- Hk, length_map.
      pose proof (scan_endpoints_total tree_data 0 []) as Htotal.
      fold (Detector.point_to_vessels tree_data) in Htotal. fold d in Htotal.
      unfold total_entries in Htotal.
      rewrite (sum_list_fmap_same 1) in Htotal by exact Hone. simpl in Htotal. lia. }
    rewrite <- Hkeys. apply keys_apart_as_apart.
    apply scan_endpoints_keys_apart. exact I.
  - intros Hapart. apply collect_junctions_singletons.
    eapply Forall_impl;
      [apply scan_endpoints_singletons; [exact Hapart|constructor]|].
    intros entry H. simpl in H. lia.
Qed.

(** ** The smoothing radius and the selected indices *)

Section RadiusFacts.

Import Region.

Lemma SFltb_trans (x y z : SpecFloat.spec_float) :
  SpecFloat.SFltb x y = true -> SpecFloat.SFltb y z = true ->
  SpecFloat.SFltb x z = true.
Proof.
  unfold SpecFloat.SFltb.
  destruct x as [s1|s1| |s1 m1 e1], y as [s2|s2| |s2 m2 e2], z as [s3|s3| |s3 m3 e3];
    simpl; try discriminate; try (destruct s1; discriminate);
    try (destruct s2; discriminate); try (destruct s3; discriminate);
    try (destruct s1, s2; discriminate); try (destruct s2, s3; discriminate);
    try (destruct s1, s3; (discriminate || reflexivity)).
  all: try (destruct s1, s2, s3; simpl; (discriminate || reflexivity || idtac)).
  all: repeat match goal with
       | |- context [(?a ?= ?b)%Z] => destruct (Z.compare_spec a b); subst
       | |- context [Pos.compare_cont Eq ?a ?b] =>
           change (Pos.compare_cont Eq a b) with (Pos.compare a b);
           destruct (Pos.compare_spec a b); subst
       end; simpl; try discriminate; try reflexivity; try lia.
Qed.

Lemma SFltb_irrefl (x : SpecFloat.spec_float) : SpecFloat.SFltb x x = false.
Proof.
  unfold SpecFloat.SFltb. destruct x as [s|s| |s m e]; simpl; try reflexivity.
  - now destruct s.
  - destruct s; rewrite Z.compare_refl;
      change (Pos.compare_cont Eq m m) with (Pos.compare m m);
      now rewrite Pos.compare_refl.
Qed.

Lemma float_ltb_trans (a b c : float) :
  PrimFloat.ltb a b = true -> PrimFloat.ltb b c = true -> PrimFloat.ltb a c = true.
Proof. rewrite !FloatAxioms.ltb_spec. apply SFltb_trans. Qed.

Lemma float_ltb_irrefl (a : float) : PrimFloat.ltb a a = false.
Proof. rewrite FloatAxioms.ltb_spec. apply SFltb_irrefl. Qed.

Lemma float_ltb_asym (a b : float) :
  PrimFloat.ltb a b = true -> PrimFloat.ltb b a = false.
Proof.
  intros H. destruct (PrimFloat.ltb b a) eqn:E; [|reflexivity].
  pose proof (float_ltb_trans _ _ _ H E) as Hrefl.
  now rewrite float_ltb_irrefl in Hrefl.
Qed.

(** The running minimum ends on an entry no other entry is below. *)
Lemma running_min_least (xs : list float) : forall acc : float,
  let r := fold_left (fun acc y => if PrimFloat.ltb y acc then y else acc) xs acc in
  (r = acc \/ PrimFloat.ltb r acc = true) /\
  r ∈ acc :: xs /\
  forall y, y ∈ xs -> PrimFloat.ltb y r = false.
Proof.
  induction xs as [|x xs IH]; intros acc; simpl.
  - split; [now left|]. split; [left|]. intros y Hy. now apply elem_of_nil in Hy.
  - destruct (IH (if PrimFloat.ltb x acc then x else acc)) as (Hr & Hin & Hleast).
    set (r := fold_left _ xs _) in *.
    destruct (PrimFloat.ltb x acc) eqn:E.
    + assert (Hx : PrimFloat.ltb x r = false).
      { destruct Hr as [-> | Hr]; [apply float_ltb_irrefl|now apply float_ltb_asym]. }
      split; [|split].
      * right. destruct Hr as [-> | Hr]; [exact E|].
        eapply float_ltb_trans; eassumption.
      * now right.
      * intros y Hy. apply elem_of_cons in Hy as [-> | Hy]; [exact Hx|now apply Hleast].
    + assert (Hx : PrimFloat.ltb x r = false).
      { destruct Hr as [-> | Hr]; [exact E|].
        destruct (PrimFloat.ltb x r) eqn:E'; [|reflexivity].
        pose proof (float_ltb_trans _ _ _ E' Hr). congruence. }
      split; [exact Hr|]. split.
      * apply elem_of_cons in Hin as [-> | Hin]; [left|right; now right].
      * intros y Hy. apply elem_of_cons in Hy as [-> | Hy]; [exact Hx|now apply Hleast].
Qed.

Lemma np_min_least (a : list float) (m : float) :
  np_min a = Ok m -> m ∈ a /\ forall y, y ∈ a -> PrimFloat.ltb y m = false.
Proof.
  destruct a as [|x xs]; [discriminate|]. cbn [np_min]. intros [= <-].
  destruct (running_min_least xs x) as (Hr & Hin & Hleast).
  split; [exact Hin|]. intros y Hy. apply elem_of_cons in Hy as [-> | Hy].
  - destruct Hr as [-> | Hr]; [apply float_ltb_irrefl|now apply float_ltb_asym].
  - now apply Hleast.
Qed.

Lemma positive_entries_spec (distances : list float) (d : float) :
  d ∈ positive_entries distances <-> d ∈ distances /\ PrimFloat.ltb 0 d = true.
Proof.
  unfold positive_entries. rewrite !list_elem_of_In. apply filter_In.
Qed.

Lemma where_from_spec (mask : list bool) : forall i j,
  j ∈ where_from mask i <-> i <= j /\ mask !! (j - i) = Some true.
Proof.
  induction mask as [|b mask IH]; intros i j; simpl.
  - split; [intros H; now apply elem_of_nil in H|intros [_ H]; discriminate H].
  - assert (Hrest : j ∈ where_from mask (S i) <-> S i <= j /\ mask !! (j - S i) = Some true)
      by apply IH.
    destruct b.
    + rewrite elem_of_cons, Hrest. split.
      * intros [-> | [Hle Hm]]; [split; [lia|now rewrite Nat.sub_diag]|].
        split; [lia|]. now replace (j - i) with (S (j - S i)) by lia.
      * intros [Hle Hm]. destruct (decide (j = i)) as [->|Hne]; [now left|right].
        split; [lia|]. now replace (j - i) with (S (j - S i)) in Hm by lia.
    + rewrite Hrest. split.
      * intros [Hle Hm]. split; [lia|].
        now replace (j - i) with (S (j - S i)) by lia.
      * intros [Hle Hm]. destruct (decide (j = i)) as [->|Hne].
        { rewrite Nat.sub_diag in Hm. discriminate Hm. }
        split; [lia|]. now replace (j - i) with (S (j - S i)) in Hm by lia.
Qed.

Lemma where_from_ascending (mask : list bool) : forall i a b x y,
  a < b -> where_from mask i !! a = Some x -> where_from mask i !! b = Some y -> x < y.
Proof.
  induction mask as [|m mask IH]; intros i a b x y Hab Ha Hb; simpl in *.
  - now rewrite lookup_nil in Ha.
  - destruct m; [|now apply (IH (S i) a b)].
    destruct b as [|b]; [lia|]. simpl in Hb. destruct a as [|a]; simpl in Ha.
    + injection Ha as <-.
      assert (Hy : y ∈ where_from mask (S i)) by (apply list_elem_of_lookup; eauto).
      apply where_from_bounds in Hy. lia.
    + apply (IH (S i) a b); [lia|exact Ha|exact Hb].
Qed.

End RadiusFacts.

(** X6: when the selection for a junction point returns, the smoothing radius
    is the radius factor times the smallest positive distance from a mesh
    point to the junction point: that distance is attained by a mesh point, no
    positive distance is below it, and the indices selected are exactly those
    of the mesh points whose distance is at most the radius. *)
Theorem region_point_ids_radius_is_least_positive_distance (pts : list coord)
    (junction_point : coord) (radius_factor : float) (ids : list nat) :
  Region.region_point_ids pts junction_point radius_factor = Ok ids ->
  exists min_radius : float,
    min_radius ∈ Region.distances_to pts junction_point /\
    PrimFloat.ltb 0 min_radius = true /\
    (forall d, d ∈ Region.distances_to pts junction_point ->
               PrimFloat.ltb 0 d = true -> PrimFloat.ltb d min_radius = false) /\
    (forall i, i ∈ ids <->
               exists p, pts !! i = Some p /\
                         PrimFloat.leb (Region.norm3 (Region.sub3 p junction_point))
                           (min_radius * radius_factor)%float = true).
Proof.
  unfold Region.region_point_ids. cbv zeta.
  destruct (Region.np_min _) as [m|e] eqn:Emin; [|discriminate].
  cbn [mbind result_bind mret result_ret]. intros [= <-].
  destruct (np_min_least _ _ Emin) as [Hin Hleast].
  apply positive_entries_spec in Hin as [Hin Hpos].
  exists m. split; [exact Hin|]. split; [exact Hpos|]. split.
  - intros d Hd Hd0. apply Hleast. now apply positive_entries_spec.
  - intros i. unfold Region.np_where. rewrite where_from_spec.
    rewrite Nat.sub_0_r. unfold Region.distances_to.
    rewrite !list_lookup_fmap. split.
    + intros [_ H]. destruct (pts !! i) as [p|]; [|discriminate].
      exists p. split; [reflexivity|]. simpl in H. now injection H.
    + intros (p & -> & H). split; [lia|]. simpl. now rewrite H.
Qed.

Lemma region_point_ids_radius_witness :
  exists min_radius : float,
    min_radius ∈ Region.distances_to (points Examples.triangle) Examples.origin /\
    PrimFloat.ltb 0 min_radius = true /\
    (forall d, d ∈ Region.distances_to (points Examples.triangle) Examples.origin ->
               PrimFloat.ltb 0 d = true -> PrimFloat.ltb d min_radius = false) /\
    (forall i, i ∈ [0] <->
               exists p, points Examples.triangle !! i = Some p /\
                         PrimFloat.leb (Region.norm3 (Region.sub3 p Examples.origin))
                           (min_radius * 2)%float = true).
Proof.
  apply (region_point_ids_radius_is_least_positive_distance
           (points Examples.triangle) Examples.origin 2%float [0]).
  reflexivity.
Defined.

(** X8: the indices selected for a junction point are valid indices of the
    point buffer and come in strictly ascending order, hence without
    repetition. *)
Theorem region_point_ids_are_ascending_indices (pts : list coord)
    (junction_point : coord) (radius_factor : float) (ids : list nat) :
  Region.region_point_ids pts junction_point radius_factor = Ok ids ->
  Forall (fun i => i < length pts) ids /\
  forall a b x y, a < b -> ids !! a = Some x -> ids !! b = Some y -> x < y.
Proof.
  unfold Region.region_point_ids. cbv zeta.
  destruct (Region.np_min _) as [m|e]; [|discriminate].
  cbn [mbind result_bind mret result_ret]. intros [= <-]. split.
  - apply Forall_forall. intros i Hi. apply where_from_bounds in Hi.
    unfold Region.distances_to in Hi. rewrite !length_map in Hi. lia.
  - apply where_from_ascending.
Qed.

Lemma region_point_ids_are_ascending_indices_witness :
  Forall (fun i => i < length (points Examples.triangle)) [0; 1; 2] /\
  forall a b x y, a < b -> [0; 1; 2] !! a = Some x -> [0; 1; 2] !! b = Some y -> x < y.
Proof.
  apply (region_point_ids_are_ascending_indices (points Examples.triangle)
           Examples.origin 3%float [0; 1; 2]).
  reflexivity.
Defined.

(** ** Regions emitted and points touched *)

Section RegionsAndFrame.

Context {ext : Collaborators}.
Import Region Basic.

Lemma regions_loop_closed_form (mesh : PolyData) (radius_factor : float)
    (junction_points : list coord) : forall junction_regions regions,
  regions_loop mesh junction_points radius_factor junction_regions = Ok regions ->
  regions = junction_regions ++ omap (region_for mesh radius_factor) junction_points.
Proof.
  induction junction_points as [|jp rest IH]; intros acc regions; cbn [regions_loop].
  - intros [= <-]. simpl. now rewrite app_nil_r.
  - change (omap (region_for mesh radius_factor) (jp :: rest))
      with (match region_for mesh radius_factor jp with
            | Some region => region :: omap (region_for mesh radius_factor) rest
            | None => omap (region_for mesh radius_factor) rest
            end).
    unfold region_for at 1.
    destruct (region_point_ids (points mesh) jp radius_factor) as [ids|e];
      [|discriminate].
    cbn [mbind result_bind].
    destruct (0 <? length ids); intros H; apply IH in H; rewrite H;
      [now rewrite <- app_assoc|reflexivity].
Qed.

Lemma omap_length_le {A B : Type} (f : A -> option B) (l : list A) :
  length (omap f l) <= length l.
Proof.
  induction l as [|x l IH]; [reflexivity|].
  change (omap f (x :: l))
    with (match f x with Some y => y :: omap f l | None => omap f l end).
  destruct (f x); simpl; lia.
Qed.

Lemma regions_loop_exception (mesh : PolyData) (radius_factor : float)
    (junction_points : list coord) : forall junction_regions e,
  regions_loop mesh junction_points radius_factor junction_regions = Raise e ->
  e = ValueError
        "zero-size array to reduction operation minimum which has no identity".
Proof.
  induction junction_points as [|jp rest IH]; intros acc e; cbn [regions_loop].
  - discriminate.
  - unfold region_point_ids. cbv zeta.
    destruct (positive_entries _) as [|d ds].
    + cbn [np_min mbind result_bind]. now intros [= <-].
    + cbn [np_min mbind result_bind mret result_ret].
      destruct (0 <? length _); apply IH.
Qed.

Lemma fold_insert_pairs_untouched (ivs : list (nat * coord)) (i : nat) :
  forall buf : list coord,
  (forall iv, iv ∈ ivs -> fst iv <> i) ->
  fold_left (fun b iv => <[fst iv := snd iv]> b) ivs buf !! i = buf !! i.
Proof.
  induction ivs as [|iv ivs IH]; intros buf H; simpl; [reflexivity|].
  rewrite IH by (intros; apply H; now right).
  apply list_lookup_insert_ne. apply H. left.
Qed.

Lemma fold_insert_row_untouched (v : coord) (idx : list nat) (i : nat) :
  forall buf : list coord,
  i ∉ idx -> fold_left (fun b j => <[j := v]> b) idx buf !! i = buf !! i.
Proof.
  induction idx as [|j idx IH]; intros buf H; simpl; [reflexivity|].
  apply not_elem_of_cons in H as [Hne H]. rewrite IH by exact H.
  apply list_lookup_insert_ne. congruence.
Qed.

Lemma assign_rows_untouched (buf : list coord) idx vals buf' i :
  assign_rows buf idx vals = Ok buf' -> i ∉ idx -> buf' !! i = buf !! i.
Proof.
  unfold assign_rows. destruct (negb _); [discriminate|].
  destruct (length vals =? length idx).
  - intros [= <-] Hi. apply fold_insert_pairs_untouched.
    intros [j v] Hin Heq. simpl in Heq. subst j. apply Hi.
    eapply elem_of_zip_l. exact Hin.
  - destruct vals as [|v [|? ?]]; try discriminate.
    intros [= <-] Hi. now apply fold_insert_row_untouched.
Qed.

Lemma update_loop_untouched (mesh : PolyData) (junction_points : list coord)
    (smoothing_radius_factor : float) (smoothing_iterations : nat)
    (relaxation_factor : float) (i : nat) :
  (forall jp ids, jp ∈ junction_points ->
     region_point_ids (points mesh) jp smoothing_radius_factor = Ok ids -> i ∉ ids) ->
  forall (junction_regions : list UnstructuredGrid) (k : nat)
         (smoothed_mesh result_mesh : PolyData),
    update_loop mesh junction_points smoothing_radius_factor smoothing_iterations
      relaxation_factor junction_regions k smoothed_mesh = Ok result_mesh ->
    points result_mesh !! i = points smoothed_mesh !! i.
Proof.
  intros Hout. induction junction_regions as [|region rest IH]; intros k sm res;
    cbn [update_loop].
  - now intros [= <-].
  - destruct (0 <? grid_n_points region); [|apply IH].
    destruct (smooth_junction_region region smoothing_iterations relaxation_factor)
      as [smoothed_region|e]; [|discriminate].
    cbn [mbind result_bind].
    unfold row_at. destruct (junction_points !! k) as [jp|] eqn:Ejp; [|discriminate].
    cbn [mbind result_bind]. rewrite recomputed_point_ids_agrees.
    destruct (region_point_ids (points mesh) jp smoothing_radius_factor)
      as [ids|e] eqn:Eids; [|discriminate].
    cbn [mbind result_bind].
    destruct (_ && _); cbn [mbind result_bind mret result_ret]; [|apply IH].
    destruct (assign_rows _ _ _) as [pts|e] eqn:Ea; [|discriminate].
    cbn [mbind result_bind mret result_ret]. intros Hloop.
    rewrite (IH _ _ _ Hloop). simpl.
    eapply assign_rows_untouched; [exact Ea|].
    intros Hin. apply elem_of_take in Hin as (n & Hn & _).
    apply (Hout jp ids); [apply list_elem_of_lookup; eauto|exact Eids|].
    apply list_elem_of_lookup. eauto.
Qed.

End RegionsAndFrame.

(** X7: [identify_junction_regions] returns exactly when every junction point
    has a mesh point at a positive distance; otherwise it raises. *)
Theorem identify_junction_regions_returns_iff {ext : Collaborators} (mesh : PolyData)
    (junction_points : list coord) (radius_factor : float) :
  is_ok (Basic.identify_junction_regions mesh junction_points radius_factor) = true
  <-> forall jp, jp ∈ junction_points -> has_distant_point mesh jp.
Proof.
  unfold Basic.identify_junction_regions. split.
  - intros Hok jp Hjp Hempty.
    rewrite (regions_loop_raises mesh junction_points radius_factor []) in Hok;
      [discriminate|].
    exists jp. split; [exact Hjp|]. intros Hdist. now apply Hdist.
  - intros Hall.
    destruct (regions_loop_returns mesh junction_points radius_factor [] Hall)
      as (regions & -> & _). reflexivity.
Qed.

(** X9: the regions [identify_junction_regions] returns are, in the order of
    the junction points, the regions extracted for the junction points whose
    selection is not empty; there are at most as many as junction points. *)
Theorem identify_junction_regions_keeps_order_and_skips_empty {ext : Collaborators}
    (mesh : PolyData) (junction_points : list coord) (radius_factor : float)
    (regions : list UnstructuredGrid) :
  Basic.identify_junction_regions mesh junction_points radius_factor = Ok regions ->
  regions = omap (region_for mesh radius_factor) junction_points
  /\ length regions <= length junction_points.
Proof.
  intros H. apply regions_loop_closed_form in H. simpl in H. subst regions.
  split; [reflexivity|]. apply omap_length_le.
Qed.

Lemma identify_junction_regions_keeps_order_witness :
  [@extract_points Examples.adjacent_tube Examples.triangle [0]]
  = omap (@region_for Examples.adjacent_tube Examples.triangle 0.5%float)
      [Examples.origin; (1, 0, 0)%float]
  /\ length [@extract_points Examples.adjacent_tube Examples.triangle [0]] <= 2.
Proof.
  apply (@identify_junction_regions_keeps_order_and_skips_empty Examples.adjacent_tube
           Examples.triangle [Examples.origin; (1, 0, 0)%float] 0.5%float).
  reflexivity.
Defined.

(** X10: a mesh point that no junction point selects keeps its coordinates
    through the overwrite stage of [apply_junction_smoothing]. *)
Theorem overwrite_stage_leaves_unselected_points {ext : Collaborators}
    (mesh : PolyData) (junction_points : list coord)
    (smoothing_radius_factor : float) (smoothing_iterations : nat)
    (relaxation_factor : float) (result_mesh : PolyData) (i : nat) :
  Basic.overwrite_stage mesh junction_points smoothing_radius_factor
    smoothing_iterations relaxation_factor = Ok result_mesh ->
  (forall jp ids, jp ∈ junction_points ->
     Region.region_point_ids (points mesh) jp smoothing_radius_factor = Ok ids ->
     i ∉ ids) ->
  points result_mesh !! i = points mesh !! i.
Proof.
  unfold Basic.overwrite_stage. cbv zeta.
  destruct (Basic.identify_junction_regions _ _ _) as [regions|e]; [|discriminate].
  cbn [mbind result_bind]. intros Hloop Hout.
  now rewrite (update_loop_untouched _ _ _ _ _ i Hout _ _ _ _ Hloop).
Qed.

Lemma overwrite_stage_leaves_unselected_points_witness :
  exists result_mesh,
    @Basic.overwrite_stage Examples.adjacent_tube Examples.triangle_and_tetrahedron
      [Examples.origin] 2%float 5 0x1.999999999999ap-4%float = Ok result_mesh
    /\ points result_mesh !! 3 = points Examples.triangle_and_tetrahedron !! 3.
Proof.
  eexists. split; [vm_compute; reflexivity|].
  apply (@overwrite_stage_leaves_unselected_points Examples.adjacent_tube
           Examples.triangle_and_tetrahedron [Examples.origin] 2%float 5
           0x1.999999999999ap-4%float).
  - vm_compute. reflexivity.
  - intros jp ids Hjp Hids. apply list_elem_of_singleton in Hjp. subst jp.
    vm_compute in Hids. injection Hids as <-.
    intros Hin. repeat (apply elem_of_cons in Hin as [Hin|Hin]; [discriminate Hin|]).
    now apply elem_of_nil in Hin.
Defined.

(** X11: when some detected junction has no mesh point at a positive
    distance, [apply_junction_smoothing] announces the junctions and then
    raises the error of the empty minimum; no mesh is returned. *)
Theorem apply_junction_smoothing_raises_without_distant_point {ext : Collaborators}
    {TreeMap Connectivity : Type} (mesh : PolyData) (tree_data : TreeData)
    (vessel_map : TreeMap) (connectivity : Connectivity)
    (smoothing_radius_factor : float) (smoothing_iterations : nat)
    (relaxation_factor : float) :
  (exists jp,
      jp ∈ snd (Detector.detect_junctions tree_data vessel_map connectivity
                  Detector.default_tolerance)
      /\ ~ has_distant_point mesh jp) ->
  Basic.apply_junction_smoothing mesh tree_data vessel_map connectivity
    smoothing_radius_factor smoothing_iterations relaxation_factor
  = ([("Detected "
        ++ show_nat (length (snd (Detector.detect_junctions tree_data vessel_map
                                    connectivity Detector.default_tolerance)))
        ++ " junctions for smoothing.")%string],
     Raise (ValueError
       "zero-size array to reduction operation minimum which has no identity")).
Proof.
  intros Hbad. unfold Basic.apply_junction_smoothing.
  destruct (Detector.detect_junctions tree_data vessel_map connectivity
              Detector.default_tolerance) as [junctions junction_points].
  simpl in Hbad |- *.
  destruct junction_points as [|p ps] eqn:Ejp.
  { destruct Hbad as (jp & Hjp & _). now apply elem_of_nil in Hjp. }
  rewrite <- Ejp in *. replace (length junction_points =? 0) with false
    by (rewrite Ejp; reflexivity).
  f_equal. unfold Basic.overwrite_stage. cbv zeta.
  unfold Basic.identify_junction_regions.
  pose proof (regions_loop_raises mesh junction_points smoothing_radius_factor []
                Hbad) as Hraise.
  destruct (Basic.regions_loop mesh junction_points smoothing_radius_factor [])
    as [regions|e] eqn:E; [discriminate Hraise|].
  cbn [mbind result_bind]. f_equal. eapply regions_loop_exception. exact E.
Qed.

Lemma apply_junction_smoothing_raises_without_distant_point_witness :
  @Basic.apply_junction_smoothing Examples.adjacent_tube _ _ Examples.single_point
    Examples.two_vessels tt tt 2%float 5 0x1.999999999999ap-4%float
  = (["Detected 1 junctions for smoothing."%string],
     Raise (ValueError
       "zero-size array to reduction operation minimum which has no identity")).
Proof.
  apply (@apply_junction_smoothing_raises_without_distant_point Examples.adjacent_tube
           _ _ Examples.single_point Examples.two_vessels tt tt 2%float 5
           0x1.999999999999ap-4%float).
  exists Examples.origin. split.
  - vm_compute. apply list_elem_of_here.
  - intros H. apply H. reflexivity.
Defined.

(** ** The advanced path: fallbacks and the branch for several walls *)

(** X12: [smooth_junctions_advanced] hands back the input mesh, raising
    nothing, when no junction is detected, when face extraction raises, or
    when face extraction yields no wall. *)
Theorem smooth_junctions_advanced_falls_back_to_input {ext : Collaborators}
    {TreeMap Connectivity : Type} (mesh : PolyData) (tree_data : TreeData)
    (vessel_map : TreeMap) (connectivity : Connectivity) (hsize : option float)
    (cap_resolution : nat) :
  snd (Detector.detect_junctions tree_data vessel_map connectivity
         Detector.default_tolerance) = []
  \/ (exists e, extract_faces mesh = Raise e)
  \/ (exists faces caps shared, extract_faces mesh = Ok (faces, [], caps, shared)) ->
  snd (Advanced.smooth_junctions_advanced mesh tree_data vessel_map connectivity
         hsize cap_resolution) = Ok mesh.
Proof.
  unfold Advanced.smooth_junctions_advanced.
  destruct (Detector.detect_junctions tree_data vessel_map connectivity
              Detector.default_tolerance) as [junctions junction_points].
  simpl. destruct junction_points as [|p ps]; [reflexivity|]. cbn [length Nat.eqb].
  intros [Hnone|[[e He]|(faces & caps & shared & Hf)]].
  - discriminate Hnone.
  - now rewrite He.
  - now rewrite Hf.
Qed.

Lemma smooth_junctions_advanced_falls_back_witness :
  snd (@Advanced.smooth_junctions_advanced Examples.adjacent_tube _ _ Examples.triangle
         Examples.lone_vessel tt tt None 40) = Ok Examples.triangle.
Proof.
  apply (@smooth_junctions_advanced_falls_back_to_input Examples.adjacent_tube _ _
           Examples.triangle Examples.lone_vessel tt tt None 40).
  left. reflexivity.
Defined.

(** X13: with junctions detected and two or more walls, the function returns
    exactly when the merge of the smoothed walls returns and an element size
    is given or carried by the input mesh; a merge error or a missing element
    size is raised to the caller.  The mesh returned is the merge of the
    smoothed walls with that element size. *)
Theorem smooth_junctions_advanced_several_walls {ext : Collaborators}
    {TreeMap Connectivity : Type} (mesh : PolyData) (tree_data : TreeData)
    (vessel_map : TreeMap) (connectivity : Connectivity) (hsize : option float)
    (cap_resolution : nat) (faces walls caps shared : list PolyData) :
  snd (Detector.detect_junctions tree_data vessel_map connectivity
         Detector.default_tolerance) <> [] ->
  extract_faces mesh = Ok (faces, walls, caps, shared) ->
  2 <= length walls ->
  let outcome :=
    snd (Advanced.smooth_junctions_advanced mesh tree_data vessel_map connectivity
           hsize cap_resolution) in
  (is_ok outcome = true <->
   is_ok (merge (map Advanced.smooth_wall walls)) = true
   /\ (is_Some hsize \/ is_Some (hsize_attr mesh)))
  /\ (forall e, merge (map Advanced.smooth_wall walls) = Raise e -> outcome = Raise e)
  /\ (forall returned, outcome = Ok returned ->
      exists merged h,
        merge (map Advanced.smooth_wall walls) = Ok merged /\
        (hsize = Some h \/ hsize = None /\ hsize_attr mesh = Some h) /\
        returned = set_hsize merged (Some h)).
Proof.
  intros Hj Hfaces Hwalls outcome. subst outcome.
  unfold Advanced.smooth_junctions_advanced.
  destruct (Detector.detect_junctions tree_data vessel_map connectivity
              Detector.default_tolerance) as [junctions junction_points].
  simpl in Hj. destruct junction_points as [|p ps]; [contradiction|].
  cbn [length Nat.eqb]. rewrite Hfaces.
  destruct walls as [|w1 [|w2 ws]]; simpl in Hwalls; [lia|lia|].
  cbn [length Nat.eqb map snd].
  destruct (merge _) as [merged|e]; cbn [mbind result_bind].
  - destruct hsize as [h|]; [|destruct (hsize_attr mesh) as [h|]];
      cbn [mbind result_bind mret result_ret is_ok].
    + split; [|split].
      * split; [intros _; split; [reflexivity|left; eauto]|reflexivity].
      * discriminate.
      * intros returned [= <-]. exists merged, h. auto.
    + split; [|split].
      * split; [intros _; split; [reflexivity|right; eauto]|reflexivity].
      * discriminate.
      * intros returned [= <-]. exists merged, h. auto.
    + split; [|split].
      * split; [discriminate|]. intros [_ [[h Hh]|[h Hh]]]; discriminate.
      * discriminate.
      * discriminate.
  - cbn [is_ok]. split; [|split].
    + split; [discriminate|]. intros [H _]. discriminate H.
    + now intros e' [= <-].
    + discriminate.
Qed.

Lemma smooth_junctions_advanced_several_walls_witness :
  is_ok (snd (@Advanced.smooth_junctions_advanced Examples.two_walls _ _
                Examples.triangle Examples.two_vessels tt tt None 40)) = false
  /\ is_ok (snd (@Advanced.smooth_junctions_advanced Examples.two_walls _ _
                   Examples.triangle Examples.two_vessels tt tt (Some 1%float) 40))
     = true.
Proof.
  assert (Hj : snd (Detector.detect_junctions Examples.two_vessels tt tt
                      Detector.default_tolerance) <> [])
    by (vm_compute; discriminate).
  assert (Hw : 2 <= length [Examples.triangle; Examples.triangle]) by (simpl; lia).
  split.
  - match goal with |- is_ok ?o = false =>
      destruct (is_ok o) eqn:E; [|reflexivity] end.
    apply (@smooth_junctions_advanced_several_walls Examples.two_walls _ _
             Examples.triangle Examples.two_vessels tt tt None 40 [Examples.triangle]
             [Examples.triangle; Examples.triangle] [] [] Hj eq_refl Hw) in E.
    destruct E as [_ [[h Hh]|[h Hh]]]; discriminate Hh.
  - apply (@smooth_junctions_advanced_several_walls Examples.two_walls _ _
             Examples.triangle Examples.two_vessels tt tt (Some 1%float) 40
             [Examples.triangle] [Examples.triangle; Examples.triangle] [] []
             Hj eq_refl Hw).
    split; [reflexivity|left; eauto].
Defined.

(** ** The degree histogram *)

Section HistogramFacts.

Import Statistics.

Lemma histogram_lookup (values : list (list nat)) (d : nat) : forall m : gmap nat nat,
  fold_left count_type values m !! d
  = match length (List.filter (Nat.eqb d) (map length values)) with
    | 0 => m !! d
    | S c => Some (default 0 (m !! d) + S c)
    end.
Proof.
  induction values as [|l values IH]; intros m; simpl; [reflexivity|].
  rewrite IH. unfold count_type.
  destruct (Nat.eqb_spec d (length l)) as [->|Hne]; simpl.
  - rewrite lookup_insert_eq. simpl.
    destruct (length (List.filter _ _)); [reflexivity|]. f_equal. lia.
  - rewrite lookup_insert_ne by congruence. reflexivity.
Qed.

Lemma degrees_of_values (junctions : list (nat * list nat)) :
  map length (map snd junctions) = degrees junctions.
Proof. unfold degrees. now rewrite map_map. Qed.

Lemma junction_types_lookup {TreeMap Connectivity : Type} (tree_data : TreeData)
    (vessel_map : TreeMap) (connectivity : Connectivity) (d : nat) :
  junction_types (get_junction_statistics tree_data vessel_map connectivity) !! d
  = match count_degree d (fst (Detector.detect_junctions tree_data vessel_map
                                 connectivity Detector.default_tolerance)) with
    | 0 => None
    | S c => Some (S c)
    end.
Proof.
  unfold get_junction_statistics, count_degree.
  destruct (Detector.detect_junctions tree_data vessel_map connectivity
              Detector.default_tolerance) as [junctions junction_points].
  simpl fst. destruct (length junctions =? 0) eqn:E; cbn [junction_types].
  - apply Nat.eqb_eq in E. destruct junctions; [reflexivity|discriminate E].
  - rewrite histogram_lookup, degrees_of_values.
    destruct (length (List.filter _ _)); reflexivity.
Qed.

Lemma degrees_at_least_two {TreeMap Connectivity : Type} (tree_data : TreeData)
    (vessel_map : TreeMap) (connectivity : Connectivity) (tolerance : float) (d : nat) :
  d ∈ degrees (fst (Detector.detect_junctions tree_data vessel_map connectivity
                      tolerance)) -> 2 <= d.
Proof.
  unfold degrees. intros H. apply list_elem_of_fmap in H as ([j l] & -> & Hin).
  apply list_elem_of_lookup in Hin as [k Hk].
  destruct (detect_junctions_aligned tree_data vessel_map connectivity tolerance)
    as [_ Hal].
  destruct (Hal _ _ _ Hk) as (_ & c & _ & _ & Hdeg). exact Hdeg.
Qed.

End HistogramFacts.

(** X14: [junction_types] maps each degree to the number of junctions of that
    degree, and has no key for a degree no junction has. *)
Theorem junction_types_counts_junctions_per_degree {TreeMap Connectivity : Type}
    (tree_data : TreeData) (vessel_map : TreeMap) (connectivity : Connectivity)
    (d : nat) :
  Statistics.junction_types
    (Statistics.get_junction_statistics tree_data vessel_map connectivity) !! d
  = if count_degree d (fst (Detector.detect_junctions tree_data vessel_map
                              connectivity Detector.default_tolerance)) =? 0
    then None
    else Some (count_degree d (fst (Detector.detect_junctions tree_data vessel_map
                                      connectivity Detector.default_tolerance))).
Proof.
  rewrite junction_types_lookup. now destruct (count_degree _ _).
Qed.

(** X15: every key of [junction_types] is a degree of at least 2, and the
    count stored under it is at least 1. *)
Theorem junction_statistics_degrees_at_least_two {TreeMap Connectivity : Type}
    (tree_data : TreeData) (vessel_map : TreeMap) (connectivity : Connectivity)
    (d n : nat) :
  Statistics.junction_types
    (Statistics.get_junction_statistics tree_data vessel_map connectivity) !! d
  = Some n ->
  2 <= d /\ 1 <= n.
Proof.
  rewrite junction_types_lookup.
  destruct (count_degree _ _) as [|c] eqn:E; [discriminate|].
  intros [= <-]. split; [|lia].
  apply (degrees_at_least_two tree_data vessel_map connectivity
           Detector.default_tolerance).
  unfold count_degree in E.
  destruct (List.filter _ _) as [|x xs] eqn:Ef; [discriminate E|].
  assert (Hx : In x (List.filter (Nat.eqb d)
                       (degrees (fst (Detector.detect_junctions tree_data vessel_map
                                        connectivity Detector.default_tolerance)))))
    by (rewrite Ef; now left).
  apply filter_In in Hx as [Hx Heq]. apply Nat.eqb_eq in Heq. subst x.
  now apply list_elem_of_In.
Qed.

Lemma junction_statistics_degrees_witness :
  Statistics.junction_types
    (Statistics.get_junction_statistics Examples.three_junctions tt tt) !! 3 = Some 1
  /\ 2 <= 3 /\ 1 <= 1.
Proof.
  split; [reflexivity|].
  apply (junction_statistics_degrees_at_least_two Examples.three_junctions tt tt 3 1).
  reflexivity.
Defined.

(** X16: the record of [get_junction_statistics] has no coordinate array
    exactly when it reports zero junctions; when it has one, it is the
    detector's coordinate array, with one row per junction counted. *)
Theorem junction_statistics_coordinates_match_count {TreeMap Connectivity : Type}
    (tree_data : TreeData) (vessel_map : TreeMap) (connectivity : Connectivity) :
  let stats := Statistics.get_junction_statistics tree_data vessel_map connectivity in
  (Statistics.total_junctions stats = 0 <-> Statistics.junction_coordinates stats = None)
  /\ (forall rows, Statistics.junction_coordinates stats = Some rows ->
        rows = snd (Detector.detect_junctions tree_data vessel_map connectivity
                      Detector.default_tolerance)
        /\ length rows = Statistics.total_junctions stats).
Proof.
  cbv zeta.
  pose proof (detect_junctions_same_length tree_data vessel_map connectivity
                Detector.default_tolerance) as Hlen.
  unfold Statistics.get_junction_statistics.
  destruct (Detector.detect_junctions tree_data vessel_map connectivity
              Detector.default_tolerance) as [junctions junction_points].
  simpl in Hlen |- *. destruct (length junctions =? 0) eqn:E;
    cbn [Statistics.total_junctions Statistics.junction_coordinates].
  - split; [split; reflexivity|]. discriminate.
  - apply Nat.eqb_neq in E. split.
    + split; [intros H; contradiction|discriminate].
    + intros rows [= <-]. split; [reflexivity|]. now symmetry.
Qed.

Lemma junction_statistics_coordinates_witness :
  Statistics.junction_coordinates
    (Statistics.get_junction_statistics Examples.five_vessels tt tt)
  = Some [Examples.origin; (3, 4, 0)%float]
  /\ length [Examples.origin; (3, 4, 0)%float]
     = Statistics.total_junctions
         (Statistics.get_junction_statistics Examples.five_vessels tt tt).
Proof.
  split; [reflexivity|].
  apply (junction_statistics_coordinates_match_count Examples.five_vessels tt tt).
  reflexivity.
Defined.

(** ** The write-back for a single junction *)

Section SingleJunction.

Context {ext : Collaborators}.
Import Region Basic.

Lemma region_point_ids_indices (pts : list coord) (junction_point : coord)
    (radius_factor : float) (ids : list nat) :
  region_point_ids pts junction_point radius_factor = Ok ids ->
  NoDup ids /\ Forall (fun i => i < length pts) ids.
Proof.
  intros H.
  destruct (positive_entries (distances_to pts junction_point)) as [|d ds] eqn:E.
  - unfold region_point_ids in H. cbv zeta in H. rewrite E in H. discriminate H.
  - destruct (region_point_ids_returns pts junction_point radius_factor)
      as (ids' & Hids & Hnd & Hin); [now rewrite E|].
    rewrite H in Hids. injection Hids as <-. now split.
Qed.

End SingleJunction.

(** X17: the overwrite stage for one junction whose selection and extracted
    region are not empty.  A region of four or more points stops the stage
    with the attribute error of the smoothing call.  A smaller region with
    more points than indices were selected stops it with the shape error of
    the assignment.  Otherwise the stage returns: the first selected indices
    hold the points of the region in their order, and every other point of
    the mesh is unchanged. *)
Theorem overwrite_stage_single_junction {ext : Collaborators} (mesh : PolyData)
    (junction_point : coord) (smoothing_radius_factor : float)
    (smoothing_iterations : nat) (relaxation_factor : float) (ids : list nat) :
  Region.region_point_ids (points mesh) junction_point smoothing_radius_factor
  = Ok ids ->
  let region := extract_points mesh ids in
  let stage :=
    Basic.overwrite_stage mesh [junction_point] smoothing_radius_factor
      smoothing_iterations relaxation_factor in
  0 < length ids ->
  0 < grid_n_points region ->
  (4 <= grid_n_points region ->
   stage = Raise (AttributeError
             "'UnstructuredGrid' object has no attribute 'smooth_taubin'"))
  /\ (grid_n_points region < 4 -> length ids < grid_n_points region ->
      stage = Raise (ValueError
                "shape mismatch: value array could not be broadcast to indexing result"))
  /\ (grid_n_points region < 4 -> grid_n_points region <= length ids ->
      exists result_mesh,
        stage = Ok result_mesh /\
        (forall k i v, ids !! k = Some i -> grid_points region !! k = Some v ->
                       points result_mesh !! i = Some v) /\
        (forall i, i ∉ take (grid_n_points region) ids ->
                   points result_mesh !! i = points mesh !! i)).
Proof.
  intros Hids region stage Hpos Hregion.
  destruct (region_point_ids_indices _ _ _ _ Hids) as [Hnd Hin].
  assert (Hstage : stage
            = (smoothed_region ← Basic.smooth_junction_region region
                                   smoothing_iterations relaxation_factor;
               pts ← Basic.assign_rows (points mesh)
                       (take (length (grid_points smoothed_region)) ids)
                       (grid_points smoothed_region);
               mret (set_points (copy mesh) pts))).
  { subst stage.
    unfold Basic.overwrite_stage, Basic.identify_junction_regions. cbv zeta.
    cbn [Basic.regions_loop]. rewrite Hids. cbn [mbind result_bind].
    replace (0 <? length ids) with true by (symmetry; now apply Nat.ltb_lt).
    cbn [Basic.regions_loop mret result_ret app mbind result_bind Basic.update_loop].
    fold region.
    replace (0 <? grid_n_points region) with true by (symmetry; now apply Nat.ltb_lt).
    unfold Basic.smooth_junction_region, Basic.grid_smooth_taubin.
    destruct (grid_n_points region <? 4) eqn:E4; cbn [mbind result_bind];
      [|reflexivity].
    cbn [Basic.row_at lookup list_lookup mbind result_bind].
    rewrite recomputed_point_ids_agrees, Hids. cbn [mbind result_bind].
    replace (0 <? length ids) with true by (symmetry; now apply Nat.ltb_lt).
    replace (0 <? length (grid_points region)) with true
      by (symmetry; now apply Nat.ltb_lt).
    cbn [andb]. change (points (copy mesh)) with (points mesh).
    destruct (Basic.assign_rows _ _ _); reflexivity. }
  rewrite Hstage. unfold Basic.smooth_junction_region, Basic.grid_smooth_taubin.
  split; [|split].
  - intros Hlarge.
    replace (grid_n_points region <? 4) with false
      by (symmetry; apply Nat.ltb_ge; exact Hlarge).
    reflexivity.
  - intros Hsmall Hmore.
    replace (grid_n_points region <? 4) with true by (symmetry; now apply Nat.ltb_lt).
    cbn [mbind result_bind].
    rewrite (assign_rows_raises_on_more_rows (points mesh) ids (grid_points region)
               Hin Hpos Hmore).
    reflexivity.
  - intros Hsmall Hfit.
    replace (grid_n_points region <? 4) with true by (symmetry; now apply Nat.ltb_lt).
    cbn [mbind result_bind].
    destruct (assign_rows_overwrites_prefix (points mesh) ids (grid_points region)
                Hnd Hin Hfit) as (pts & Hassign & _ & Hset & Hkeep).
    exists (set_points (copy mesh) pts). rewrite Hassign.
    split; [reflexivity|]. split; [exact Hset|exact Hkeep].
Qed.

Lemma overwrite_stage_single_junction_witness :
  @Basic.overwrite_stage Examples.adjacent_tube Examples.diamond [Examples.origin]
    2%float 5 0x1.999999999999ap-4%float
  = Raise (AttributeError "'UnstructuredGrid' object has no attribute 'smooth_taubin'")
  /\ @Basic.overwrite_stage Examples.adjacent_tube Examples.triangle [Examples.origin]
       2%float 5 0x1.999999999999ap-4%float
     = Raise (ValueError
         "shape mismatch: value array could not be broadcast to indexing result")
  /\ exists result_mesh,
       @Basic.overwrite_stage Examples.adjacent_tube Examples.triangle_and_tetrahedron
         [Examples.origin] 2%float 5 0x1.999999999999ap-4%float = Ok result_mesh /\
       (forall k i v,
           [0; 1; 2] !! k = Some i ->
           grid_points (@extract_points Examples.adjacent_tube
                          Examples.triangle_and_tetrahedron [0; 1; 2]) !! k = Some v ->
           points result_mesh !! i = Some v) /\
       (forall i,
           i ∉ take (grid_n_points (@extract_points Examples.adjacent_tube
                                      Examples.triangle_and_tetrahedron [0; 1; 2]))
                 [0; 1; 2] ->
           points result_mesh !! i = points Examples.triangle_and_tetrahedron !! i).
Proof.
  split; [|split].
  - apply (@overwrite_stage_single_junction Examples.adjacent_tube Examples.diamond
             Examples.origin 2%float 5 0x1.999999999999ap-4%float [0; 1; 2; 3]);
      [reflexivity|vm_compute; lia|vm_compute; lia|vm_compute; lia].
  - apply (@overwrite_stage_single_junction Examples.adjacent_tube Examples.triangle
             Examples.origin 2%float 5 0x1.999999999999ap-4%float [0]);
      [reflexivity|vm_compute; lia|vm_compute; lia|vm_compute; lia|vm_compute; lia].
  - apply (@overwrite_stage_single_junction Examples.adjacent_tube
             Examples.triangle_and_tetrahedron Examples.origin 2%float 5
             0x1.999999999999ap-4%float [0; 1; 2]);
      [reflexivity|vm_compute; lia|vm_compute; lia|vm_compute; lia|vm_compute; lia].
Defined.

(** ** What a returning call says about the regions *)

Section ReturningCalls.

Context {ext : Collaborators}.
Import Region Basic.

Lemma assign_rows_returns_rows (buf : list coord) (n : nat) (ids : list nat)
    (vals : list coord) :
  length vals = n -> 0 < length ids ->
  is_ok (assign_rows buf (take n ids) vals) = true -> n <= length ids.
Proof.
  intros Hn Hids. unfold assign_rows. destruct (negb _); [discriminate|].
  destruct (length vals =? length (take n ids)) eqn:E.
  - intros _. apply Nat.eqb_eq in E. rewrite length_take in E. lia.
  - destruct vals as [|v [|w vals]]; try discriminate. simpl in Hn. lia.
Qed.

Lemma update_loop_returns_only_if (mesh : PolyData) (junction_points : list coord)
    (smoothing_radius_factor : float) (smoothing_iterations : nat)
    (relaxation_factor : float) (junction_regions : list UnstructuredGrid) :
  forall (i : nat) (smoothed_mesh : PolyData),
    is_ok (update_loop mesh junction_points smoothing_radius_factor
             smoothing_iterations relaxation_factor junction_regions i
             smoothed_mesh) = true ->
    forall k region junction_point ids,
      junction_regions !! k = Some region ->
      junction_points !! (i + k) = Some junction_point ->
      region_point_ids (points mesh) junction_point smoothing_radius_factor = Ok ids ->
      grid_n_points region < 4 /\ (ids = [] \/ grid_n_points region <= length ids).
Proof.
  induction junction_regions as [|region rest IH]; intros i sm Hok k r jp ids Hk Hjp Hids.
  - now rewrite lookup_nil in Hk.
  - cbn [update_loop] in Hok.
    assert (Hnext : forall sm', is_ok (update_loop mesh junction_points
                       smoothing_radius_factor smoothing_iterations relaxation_factor
                       rest (S i) sm') = true ->
                    forall k', k = S k' ->
                    grid_n_points r < 4 /\ (ids = [] \/ grid_n_points r <= length ids)).
    { intros sm' Hok' k' ->. apply (IH (S i) sm' Hok' k' r jp ids); [exact Hk| |exact Hids].
      now replace (S i + k') with (i + S k') by lia. }
    destruct (0 <? grid_n_points region) eqn:Epos.
    + unfold smooth_junction_region, grid_smooth_taubin in Hok.
      destruct (grid_n_points region <? 4) eqn:E4; [|discriminate Hok].
      cbn [mbind result_bind] in Hok.
      unfold row_at in Hok.
      destruct (junction_points !! i) as [jp0|] eqn:Ejp0; [|discriminate Hok].
      cbn [mbind result_bind] in Hok. rewrite recomputed_point_ids_agrees in Hok.
      destruct (region_point_ids (points mesh) jp0 smoothing_radius_factor)
        as [ids0|e] eqn:Eids0; [|discriminate Hok].
      cbn [mbind result_bind] in Hok.
      destruct k as [|k'].
      * injection Hk as <-. rewrite Nat.add_0_r, Ejp0 in Hjp. injection Hjp as <-.
        rewrite Eids0 in Hids. injection Hids as <-.
        apply Nat.ltb_lt in E4. split; [exact E4|].
        destruct ids0 as [|i0 ids0]; [now left|right].
        apply Nat.ltb_lt in Epos. unfold grid_n_points in Epos.
        replace ((0 <? length (i0 :: ids0)) && (0 <? length (grid_points region)))
          with true in Hok
          by (symmetry; apply andb_true_iff; split; apply Nat.ltb_lt; simpl; lia).
        apply (assign_rows_returns_rows (points sm) _ (i0 :: ids0)
                 (grid_points region)); [reflexivity|simpl; lia|].
        destruct (assign_rows _ _ _) as [pts|e]; [reflexivity|discriminate Hok].
      * destruct (_ && _) in Hok.
        -- destruct (assign_rows _ _ _) as [pts|e]; [|discriminate Hok].
           cbn [mbind result_bind mret result_ret] in Hok.
           exact (Hnext _ Hok k' eq_refl).
        -- cbn [mbind result_bind mret result_ret] in Hok.
           exact (Hnext _ Hok k' eq_refl).
    + destruct k as [|k'].
      * injection Hk as <-. apply Nat.ltb_ge in Epos. split; [lia|right; lia].
      * exact (Hnext _ Hok k' eq_refl).
Qed.

End ReturningCalls.

(** X18: [apply_junction_smoothing] returns a mesh for a tree with junctions
    only if every region it extracted has fewer than four points, and no
    more points than the junction point at the region's position selects,
    unless that junction point selects none. *)
Theorem apply_junction_smoothing_returns_only_for_small_regions {ext : Collaborators}
    {TreeMap Connectivity : Type} (mesh : PolyData) (tree_data : TreeData)
    (vessel_map : TreeMap) (connectivity : Connectivity)
    (smoothing_radius_factor : float) (smoothing_iterations : nat)
    (relaxation_factor : float) :
  let junction_points :=
    snd (Detector.detect_junctions tree_data vessel_map connectivity
           Detector.default_tolerance) in
  junction_points <> [] ->
  is_ok (snd (Basic.apply_junction_smoothing mesh tree_data vessel_map connectivity
                smoothing_radius_factor smoothing_iterations relaxation_factor))
  = true ->
  exists regions,
    Basic.identify_junction_regions mesh junction_points smoothing_radius_factor
    = Ok regions /\
    forall k region junction_point ids,
      regions !! k = Some region ->
      junction_points !! k = Some junction_point ->
      Region.region_point_ids (points mesh) junction_point smoothing_radius_factor
      = Ok ids ->
      grid_n_points region < 4 /\ (ids = [] \/ grid_n_points region <= length ids).
Proof.
  cbv zeta. unfold Basic.apply_junction_smoothing.
  destruct (Detector.detect_junctions tree_data vessel_map connectivity
              Detector.default_tolerance) as [junctions junction_points].
  simpl. intros Hj. destruct junction_points as [|p ps] eqn:Ejp; [contradiction|].
  rewrite <- Ejp. replace (length junction_points =? 0) with false
    by (rewrite Ejp; reflexivity).
  simpl. unfold Basic.overwrite_stage. cbv zeta.
  destruct (Basic.identify_junction_regions mesh junction_points
              smoothing_radius_factor) as [regions|e]; [|discriminate].
  cbn [mbind result_bind]. intros Hok. exists regions. split; [reflexivity|].
  assert (Hloop : is_ok (Basic.update_loop mesh junction_points
                           smoothing_radius_factor smoothing_iterations
                           relaxation_factor regions 0 (copy mesh)) = true).
  { destruct (Basic.update_loop _ _ _ _ _ _ _ _); [reflexivity|discriminate Hok]. }
  exact (update_loop_returns_only_if mesh junction_points smoothing_radius_factor
           smoothing_iterations relaxation_factor regions 0 (copy mesh) Hloop).
Qed.

Lemma apply_junction_smoothing_returns_only_for_small_regions_witness :
  exists regions,
    @Basic.identify_junction_regions Examples.adjacent_tube
      Examples.triangle_and_tetrahedron [Examples.origin] 2%float = Ok regions /\
    forall k region junction_point ids,
      regions !! k = Some region ->
      [Examples.origin] !! k = Some junction_point ->
      Region.region_point_ids (points Examples.triangle_and_tetrahedron) junction_point
        2%float = Ok ids ->
      grid_n_points region < 4 /\ (ids = [] \/ grid_n_points region <= length ids).
Proof.
  apply (@apply_junction_smoothing_returns_only_for_small_regions
           Examples.adjacent_tube _ _ Examples.triangle_and_tetrahedron
           Examples.two_vessels tt tt 2%float 5 0x1.999999999999ap-4%float).
  - vm_compute. discriminate.
  - vm_compute. reflexivity.
Defined.
